(** * scapy/sendrecv.py: send, receive and match packets

    A shallow embedding of the send/receive engine of [scapy/sendrecv.py]
    and the properties of its natural-language specification.

    Conventions of the embedding:
    - Python [int] is [Z]; list lengths are [nat].
    - A Python [dict] keeps its keys in insertion order, and
      [itertools.chain( *d.values())] depends on that order, so a dict is an
      association list ([PyDict]) that replaces values in place and appends
      new keys at the end.
    - Packets are objects: they are compared by identity ([EqDecision]), and
      the attribute [_answered] that [_process_packet] attaches to a stimulus
      lives in a separate store of flagged objects.
    - The two threads of [SndRcvHandler] (the sender [_sndrcv_snd] and the
      sniffer that calls [_process_packet]) are interleaved by an explicit
      schedule of events.
    - Code that can loop for ever takes fuel, and each such function comes
      with a lemma that enough fuel gives the result. *)

From Stdlib Require Import ZArith List.
From Stdlib Require Import Strings.Byte Strings.String.
From stdpp Require Import base tactics option list numbers strings pretty.

Local Open Scope Z_scope.

(** ** Python values shared by the components *)

Definition bytes := list byte.

#[global] Instance byte_eq_dec : EqDecision byte.
Proof.
  intros x y. destruct (Byte.eqb x y) eqn:E.
  - left. by apply Byte.byte_dec_bl.
  - right. intros ->. by rewrite Byte.byte_dec_lb in E.
Defined.

(** Python's truth value of an [int]: [if n:]. *)
Definition truthy (n : Z) : bool := negb (n =? 0).

(** Insertion-ordered dictionaries. *)
Module PyDict.
Section Dict.
Context {K V : Type} `{EqDecision K}.

Definition t := list (K * V).

(** [d.get(k)]; [Some] exactly when [k in d]. *)
Fixpoint get (k : K) (d : list (K * V)) : option V :=
  match d with
  | [] => None
  | (k', v) :: d' => if decide (k' = k) then Some v else get k d'
  end.

(** [d[k] = v]: an existing key keeps its place, a new one goes last. *)
Fixpoint set (k : K) (v : V) (d : list (K * V)) : list (K * V) :=
  match d with
  | [] => [(k, v)]
  | (k', w) :: d' =>
      if decide (k' = k) then (k', v) :: d' else (k', w) :: set k v d'
  end.

(** [del d[k]] for a key that is present (absent: no change here; the
    callers test membership first). *)
Fixpoint del (k : K) (d : list (K * V)) : list (K * V) :=
  match d with
  | [] => []
  | (k', w) :: d' => if decide (k' = k) then d' else (k', w) :: del k d'
  end.

Definition mem (k : K) (d : list (K * V)) : bool :=
  match get k d with Some _ => true | None => false end.

Definition keys (d : list (K * V)) : list K := map fst d.
Definition values (d : list (K * V)) : list V := map snd d.

End Dict.
End PyDict.

(** ** The match coordinator: [SndRcvHandler] *)

Module SndRcv.
Section Handler.

(** The packet layer is external: any object with [hashret()] and
    [answers(other)]. *)
Context {Packet : Type} `{EqDecision Packet}.
Variable hashret : Packet → bytes.
(** [answers r s] is [r.answers(s)]. *)
Variable answers : Packet → Packet → bool.

(** Where the sender thread stands inside [_sndrcv_snd]. *)
Inductive SndPc :=
| SndLoop                 (* at the head of [for p in self.tobesent] *)
| SndInserted (p : Packet) (* [hsent] updated, about to call [self.pks.send(p)] *)
| SndSlept                (* after [send] and [sleep], about to test [breakout] *)
| SndFinished.            (* past the [finally] block *)

(** The state shared by the two threads, the socket, and the sender's
    locals.  [multi], [threaded] are arguments of the constructor. *)
Record State := mkState {
  hsent : list (bytes * list Packet);   (* Dict[bytes, List[Packet]] *)
  ans : list (Packet * Packet);         (* QueryAnswer(sentpkt, r) *)
  noans : Z;
  notans : Z;
  nbrecv : Z;
  _send_done : bool;
  breakout : bool;                      (* the Event *)
  sniffer_stopped : bool;               (* [sniffer.stop(join=False)] was called *)
  has_answered : list Packet;           (* objects carrying [_answered] *)
  wire : list Packet;                   (* arguments of [self.pks.send], in order *)
  snd_iter : list Packet;               (* what the iterator over [tobesent] still holds *)
  snd_i : Z;
  snd_pc : SndPc
}.

Definition bucket (h : bytes) (st : State) : list Packet :=
  default [] (PyDict.get h (hsent st)).

(** [self.hsent.setdefault(h, []).append(p)] *)
Definition setdefault_append (h : bytes) (p : Packet)
    (d : list (bytes * list Packet)) : list (bytes * list Packet) :=
  PyDict.set h (default [] (PyDict.get h d) ++ [p]) d.

(** [list(itertools.chain( *self.hsent.values()))] *)
Definition chain_values (d : list (bytes * list Packet)) : list Packet :=
  concat (PyDict.values d).

(** How often [s] occurs in a list of stimuli. *)
Definition occurrences (s : Packet) (l : list Packet) : nat :=
  length (filter (λ x, x = s) l).

(** The number of pairs [(s, r)] in a list of query/answer pairs. *)
Definition answer_count (s : Packet) (l : list (Packet * Packet)) : nat :=
  occurrences s (map fst l).

(** The number of distinct stimuli in a list of query/answer pairs. *)
Definition distinct_stimuli (l : list (Packet * Packet)) : nat :=
  length (remove_dups (map fst l)).

(** [p] is known to the dispatcher: it is in the bucket of its
    fingerprint, or the dispatcher has already paired it with a reply. *)
Definition recorded (p : Packet) (st : State) : Prop :=
  p ∈ bucket (hashret p) st ∨ p ∈ map fst (ans st).

(** The invariant of a pass whose wire held [w0] at its start: the
    stimulus about to be sent, and every stimulus sent in the pass, is
    recorded. *)
Definition send_invariant (w0 : list Packet) (st : State) : Prop :=
  (∀ p, snd_pc st = SndInserted p → recorded p st) ∧
  ∃ sent, wire st = w0 ++ sent ∧ ∀ p, p ∈ sent → recorded p st.

(** Where a stimulus can be: paired, in the table, or still to be sent. *)
Definition whereabouts (s : Packet) (st : State) : nat :=
  (answer_count s (ans st) + occurrences s (chain_values (hsent st))
   + occurrences s (snd_iter st))%nat.

(** The invariant of multi-answer mode: the flagged stimuli are the
    paired ones, each flagged once, and [noans] counts them. *)
Definition multi_invariant (st : State) : Prop :=
  NoDup (has_answered st) ∧
  noans st = Z.of_nat (length (has_answered st)) ∧
  ∀ s, s ∈ has_answered st ↔ s ∈ map fst (ans st).

(** A pass, as [(given, left)], that left as many stimuli outstanding as
    it was given: nothing was answered. *)
Definition no_progress (pass : nat * nat) : Prop := pass.1 = pass.2.

Section WithMode.
Variable multi : bool.

(** [_stop_sniffer_if_done]: the sniffer is asked to stop once the sender
    is done and every stimulus counted in [notans] is answered. *)
Definition _stop_sniffer_if_done (st : State) : State :=
  if _send_done st && (notans st <=? noans st) && negb multi then
    mkState (hsent st) (ans st) (noans st) (notans st) (nbrecv st)
      (_send_done st) (breakout st) true (has_answered st) (wire st)
      (snd_iter st) (snd_i st) (snd_pc st)
  else st.

(** The body of [if r.answers(sentpkt):] inside [_process_packet], for the
    stimulus [sentpkt] found at index [i] of the bucket [hlst] of [h]. *)
Definition record_match (h : bytes) (hlst : list Packet) (i : nat)
    (sentpkt r : Packet) (st : State) : State :=
  let ans' := ans st ++ [(sentpkt, r)] in
  if negb multi then
    (* del hlst[i]; self.noans += 1 *)
    mkState (PyDict.set h (delete i hlst) (hsent st)) ans' (noans st + 1)
      (notans st) (nbrecv st) (_send_done st) (breakout st)
      (sniffer_stopped st) (has_answered st) (wire st)
      (snd_iter st) (snd_i st) (snd_pc st)
  else
    (* if not hasattr(sentpkt, '_answered'): self.noans += 1
       sentpkt._answered = 1 *)
    let flagged := bool_decide (sentpkt ∈ has_answered st) in
    mkState (hsent st) ans'
      (if flagged then noans st else noans st + 1)
      (notans st) (nbrecv st) (_send_done st) (breakout st)
      (sniffer_stopped st)
      (if flagged then has_answered st else has_answered st ++ [sentpkt])
      (wire st) (snd_iter st) (snd_i st) (snd_pc st).

(** The first stimulus of the bucket of [r.hashret()] that [r] answers:
    [for i, sentpkt in enumerate(hlst): if r.answers(sentpkt): ... break]. *)
Definition first_match (r : Packet) (st : State) : option (nat * Packet) :=
  match PyDict.get (hashret r) (hsent st) with
  | Some hlst => list_find (λ sentpkt, answers r sentpkt = true) hlst
  | None => None
  end.

Definition count_unmatched (st : State) : State :=
  mkState (hsent st) (ans st) (noans st) (notans st) (nbrecv st + 1)
    (_send_done st) (breakout st) (sniffer_stopped st) (has_answered st)
    (wire st) (snd_iter st) (snd_i st) (snd_pc st).

(** [_process_packet(self, r)] *)
Definition _process_packet (r : option Packet) (st : State) : State :=
  match r with
  | None => st
  | Some r =>
      let h := hashret r in
      match first_match r st with
      | Some (i, sentpkt) =>
          _stop_sniffer_if_done (record_match h (bucket h st) i sentpkt r st)
      | None => count_unmatched (_stop_sniffer_if_done st)
      end
  end.

(** The [finally] block of [_sndrcv_snd] (without a flood generator) and
    the call of [_stop_sniffer_if_done] that follows it. *)
Definition snd_finish (st : State) : State :=
  _stop_sniffer_if_done
    (mkState (hsent st) (ans st) (noans st)
       (if _send_done st then notans st else snd_i st)
       (nbrecv st) true (breakout st) (sniffer_stopped st)
       (has_answered st) (wire st) (snd_iter st) (snd_i st) SndFinished).

(** One atomic step of the sender thread.  [send_ok = false]: the call of
    [self.pks.send(p)] raises, which leaves the loop for the handlers and
    the [finally] block. *)
Definition snd_step (send_ok : bool) (st : State) : State :=
  match snd_pc st with
  | SndLoop =>
      match snd_iter st with
      | p :: rest =>
          mkState (setdefault_append (hashret p) p (hsent st)) (ans st)
            (noans st) (notans st) (nbrecv st) (_send_done st) (breakout st)
            (sniffer_stopped st) (has_answered st) (wire st)
            rest (snd_i st) (SndInserted p)
      | [] => snd_finish st
      end
  | SndInserted p =>
      if send_ok then
        mkState (hsent st) (ans st) (noans st) (notans st) (nbrecv st)
          (_send_done st) (breakout st) (sniffer_stopped st)
          (has_answered st) (wire st ++ [p]) (snd_iter st) (snd_i st) SndSlept
      else snd_finish st
  | SndSlept =>
      if breakout st then snd_finish st
      else
        mkState (hsent st) (ans st) (noans st) (notans st) (nbrecv st)
          (_send_done st) (breakout st) (sniffer_stopped st)
          (has_answered st) (wire st) (snd_iter st) (snd_i st + 1) SndLoop
  | SndFinished => st
  end.

(** What the scheduler can let happen during a pass. *)
Inductive Event :=
| SndStep                 (* the sender thread advances by one step *)
| SndRaise                (* the sender's next step is a [send] that raises *)
| Rcv (r : option Packet) (* the sniffer hands [r] to [_process_packet] *)
| SetBreakout.            (* [self.breakout.set()] by another thread *)

Definition is_rcv (e : Event) : bool :=
  match e with Rcv _ => true | _ => false end.

Definition set_breakout (b : bool) (st : State) : State :=
  mkState (hsent st) (ans st) (noans st) (notans st) (nbrecv st)
    (_send_done st) b (sniffer_stopped st) (has_answered st) (wire st)
    (snd_iter st) (snd_i st) (snd_pc st).

Definition step (e : Event) (st : State) : State :=
  match e with
  | SndStep => snd_step true st
  | SndRaise =>
      match snd_pc st with
      | SndInserted _ => snd_step false st
      | _ => st
      end
  | Rcv r => _process_packet r st
  | SetBreakout => set_breakout true st
  end.

Definition run (sched : list Event) (st : State) : State :=
  fold_left (λ s e, step e s) sched st.

(** The same steps as a relation: what one event can change in the
    table, the answers, the counters, the flags, the wire and the sender's
    position.  [step_transition] below shows that [step] stays inside it. *)
Inductive Transition (st st' : State) : Prop :=
| TQuiet :
    hsent st' = hsent st → ans st' = ans st → noans st' = noans st →
    has_answered st' = has_answered st → wire st' = wire st →
    snd_iter st' = snd_iter st →
    (snd_pc st' = snd_pc st ∨ snd_pc st' = SndFinished
     ∨ (snd_pc st = SndSlept ∧ snd_pc st' = SndLoop)) →
    Transition st st'
| TInsert p rest :
    snd_pc st = SndLoop → snd_iter st = p :: rest →
    hsent st' = setdefault_append (hashret p) p (hsent st) →
    snd_iter st' = rest → snd_pc st' = SndInserted p →
    ans st' = ans st → noans st' = noans st →
    has_answered st' = has_answered st → wire st' = wire st →
    Transition st st'
| TSend p :
    snd_pc st = SndInserted p →
    wire st' = wire st ++ [p] → snd_pc st' = SndSlept →
    hsent st' = hsent st → ans st' = ans st → noans st' = noans st →
    has_answered st' = has_answered st → snd_iter st' = snd_iter st →
    Transition st st'
| TMatchSingle r i s :
    multi = false → first_match r st = Some (i, s) →
    hsent st'
    = PyDict.set (hashret r) (delete i (bucket (hashret r) st)) (hsent st) →
    ans st' = ans st ++ [(s, r)] → noans st' = noans st + 1 →
    has_answered st' = has_answered st → wire st' = wire st →
    snd_iter st' = snd_iter st → snd_pc st' = snd_pc st →
    Transition st st'
| TMatchMulti r i s :
    multi = true → first_match r st = Some (i, s) →
    hsent st' = hsent st → ans st' = ans st ++ [(s, r)] →
    noans st'
    = (if bool_decide (s ∈ has_answered st) then noans st else noans st + 1) →
    has_answered st'
    = (if bool_decide (s ∈ has_answered st) then has_answered st
       else has_answered st ++ [s]) →
    wire st' = wire st → snd_iter st' = snd_iter st →
    snd_pc st' = snd_pc st →
    Transition st st'.

(** [snd_thread.join()]: the sender runs on its own until it has finished.
    With [breakout] set this takes at most one more packet. *)
Fixpoint join (n : nat) (st : State) : State :=
  match n with
  | O => st
  | S n' =>
      match snd_pc st with
      | SndFinished => st
      | _ => join n' (snd_step true st)
      end
  end.

(** Start of a retry pass: [self.breakout.clear(); self.hsent = {}] and a
    new sender over [tobesent]. *)
Definition pass_start (tobesent : list Packet) (st : State) : State :=
  mkState [] (ans st) (noans st) (notans st) (nbrecv st) (_send_done st)
    false (sniffer_stopped st) (has_answered st) (wire st)
    tobesent 0 SndLoop.

(** One pass of the [while retry >= 0] loop up to the computation of
    [remain].  Threaded: the schedule interleaves the two threads while
    the sniffer runs, then [breakout.set()] and [snd_thread.join()].
    Not threaded: the sender is the sniffer's [started_callback], so it
    runs to its end before the first packet is received. *)
Definition run_pass (threaded : bool) (sched : list Event)
    (tobesent : list Packet) (st : State) : State :=
  let st0 := pass_start tobesent st in
  if threaded then
    join 4 (set_breakout true (run sched st0))
  else
    run (filter (λ e, is_rcv e = true) sched)
        (join (3 * length tobesent + 1)%nat st0).

(** [remain] after a pass. *)
Definition remain (st : State) : list Packet :=
  if multi then
    filter (λ p, p ∉ has_answered st) (chain_values (hsent st))
  else chain_values (hsent st).

(** The result of the constructor: [results()], the number of stimuli
    each pass was given and left outstanding, and the last state. *)
Record Result := mkResult {
  ans_result : list (Packet * Packet);
  unans_result : list Packet;
  passes : list (nat * nat);
  final : State
}.

(** [if autostop and len(remain) > 0 and len(remain) != len(self.tobesent):
       retry = autostop] *)
Definition reset_retry (autostop retry : Z) (tobesent rem : list Packet) : Z :=
  if truthy autostop && bool_decide (0 < length rem)%nat
     && negb (bool_decide (length rem = length tobesent))
  then autostop else retry.

(** [while retry >= 0: ...].  [env n] is the schedule of pass [n];
    [rem] is the variable [remain] as last assigned. *)
Fixpoint retry_loop (fuel : nat) (threaded : bool) (env : nat → list Event)
    (autostop : Z) (n : nat) (retry : Z) (tobesent rem : list Packet)
    (st : State) : option (State * list Packet * list (nat * nat)) :=
  if retry <? 0 then Some (st, rem, [])
  else
    match fuel with
    | O => None
    | S fuel' =>
        let st' := run_pass threaded (env n) tobesent st in
        let rem' := remain st' in
        let retry' := reset_retry autostop retry tobesent rem' in
        let this := (length tobesent, length rem') in
        (* self.tobesent = remain; if len(self.tobesent) == 0: break *)
        if bool_decide (length rem' = 0%nat) then Some (st', rem', [this])
        else
          '(st'', rem'', tr) ← retry_loop fuel' threaded env autostop (S n)
                                 (retry' - 1) rem' rem' st';
          Some (st'', rem'', this :: tr)
    end.

(** [if retry < 0: autostop = retry = -retry else: autostop = 0];
    the pair is [(retry, autostop)]. *)
Definition init_retry (retry : Z) : Z * Z :=
  if retry <? 0 then (- retry, - retry) else (retry, 0).

Definition init_state : State :=
  mkState [] [] 0 0 0 false false false [] [] [] 0 SndLoop.

(** Enough passes for any run: every pass either leaves fewer stimuli or
    uses up one retry. *)
Definition enough_fuel (retry autostop : Z) (tobesent : list Packet) : nat :=
  S (length tobesent * S (Z.to_nat autostop) + Z.to_nat retry).

(** [for snd, _ in self.ans: if hasattr(snd, '_answered'): del snd._answered] *)
Definition clean_answered (st : State) : list Packet :=
  if multi then
    filter (λ p, p ∉ map fst (ans st)) (has_answered st)
  else has_answered st.

(** [SndRcvHandler.__init__] for a built list of stimuli, without flood
    generator: the retry loop and the results. *)
Definition SndRcvHandler (threaded : bool) (env : nat → list Event)
    (retry : Z) (pkt : list Packet) : option Result :=
  let '(retry1, autostop) := init_retry retry in
  '(st, rem, tr) ← retry_loop (enough_fuel retry1 autostop pkt) threaded env
                     autostop 0 retry1 pkt [] init_state;
  Some (mkResult (ans st) rem tr
          (mkState (hsent st) (ans st) (noans st) (notans st) (nbrecv st)
             (_send_done st) (breakout st) (sniffer_stopped st)
             (clean_answered st) (wire st) (snd_iter st) (snd_i st)
             (snd_pc st))).

(** [sr1] and [srp1] on the results of the coordinator:
    [ans, _ = sr(...); if ans: return ans[0][1]; return None]. *)
Definition sr1 (res : Result) : option Packet :=
  match ans_result res with
  | (_, r) :: _ => Some r
  | [] => None
  end.

(** The number the constructor prints as received:
    [self.nbrecv + len(self.ans)]. *)
Definition seen (st : State) : Z := nbrecv st + Z.of_nat (length (ans st)).

(** The packets a schedule hands to the dispatcher. *)
Definition received (sched : list Event) : list Packet :=
  omap (λ e, match e with Rcv r => r | _ => None end) sched.

(** The passes of a run form a chain from [a] stimuli to [b]: each pass
    is given what the pass before left, and leaves no more than it was
    given. *)
Fixpoint chained (a : nat) (tr : list (nat * nat)) (b : nat) : Prop :=
  match tr with
  | [] => a = b
  | (n_given, n_left) :: tr' =>
      n_given = a ∧ (n_left ≤ n_given)%nat ∧ chained n_left tr' b
  end.

(** Everything in the table, in the answers and in the sender's iterator
    comes from [given]; a stimulus sits in the bucket of its own
    fingerprint; a recorded pair is a reply that answers its stimulus and
    shares its fingerprint. *)
Definition genuine (given : list Packet) (st : State) : Prop :=
  (∀ h l s, (h, l) ∈ hsent st → s ∈ l → hashret s = h ∧ s ∈ given) ∧
  (∀ s r, (s, r) ∈ ans st →
     answers r s = true ∧ hashret r = hashret s ∧ s ∈ given) ∧
  (∀ s, s ∈ snd_iter st → s ∈ given).

(** The stimuli sent in a pass that started with [w0] on the wire are a
    prefix of [tobesent], and the sender's iterator holds what follows
    the stimulus in hand. *)
Definition in_order (w0 tobesent : list Packet) (st : State) : Prop :=
  ∃ sent rest,
    wire st = w0 ++ sent ∧ tobesent = sent ++ rest ∧
    match snd_pc st with
    | SndInserted p => rest = p :: snd_iter st
    | SndFinished => True
    | _ => rest = snd_iter st
    end.

End WithMode.
End Handler.
End SndRcv.

(** ** The send engine: [__gen_send] *)

Module GenSend.
Section Send.
Context {Packet : Type}.

(** What the engine has done so far.  [intr] is the number of [send] calls
    left before the user's [KeyboardInterrupt] arrives ([None]: never). *)
Record Tx := mkTx {
  sock : list Packet;                  (* arguments of [s.send], in order *)
  n : Z;
  sent_packets : option (list Packet); (* [PacketList()] or [None] *)
  dots : nat;                          (* [os.write(1, b".")] *)
  intr : option nat;
  interrupted : bool
}.

(** One packet of [for p in x:]: [s.send(p)], the optional record, the
    counter and the dot.  The sleeps ([realtime], [inter]) change when a
    packet leaves, not what is sent. *)
Definition send_one (verbose : Z) (p : Packet) (tx : Tx) : Tx :=
  mkTx (sock tx ++ [p]) (n tx + 1)
    (match sent_packets tx with
     | Some l => Some (l ++ [p])
     | None => None
     end)
    (if truthy verbose then S (dots tx) else dots tx)
    (match intr tx with Some k => Some (Nat.pred k) | None => None end)
    false.

(** [for p in x: ...], left at once when the interrupt arrives. *)
Fixpoint traverse (verbose : Z) (x : list Packet) (tx : Tx) : Tx :=
  match x with
  | [] => tx
  | p :: x' =>
      match intr tx with
      | Some O =>
          mkTx (sock tx) (n tx) (sent_packets tx) (dots tx) (intr tx) true
      | _ => traverse verbose x' (send_one verbose p tx)
      end
  end.

(** [while loop: for p in x: ...; if loop < 0: loop += 1] *)
Fixpoint while_loop (fuel : nat) (verbose : Z) (x : list Packet) (loop : Z)
    (tx : Tx) : option Tx :=
  if loop =? 0 then Some tx
  else
    match fuel with
    | O => None
    | S fuel' =>
        let tx' := traverse verbose x tx in
        if interrupted tx' then Some tx'
        else
          while_loop fuel' verbose x (if loop <? 0 then loop + 1 else loop) tx'
    end.

(** [if count is not None: loop = -count elif not loop: loop = -1] *)
Definition effective_loop (loop : Z) (count : option Z) : Z :=
  match count with
  | Some c => - c
  | None => if truthy loop then loop else -1
  end.

(** [__gen_send(s, x, inter, loop, count, verbose, realtime,
    return_packets)] for a source that [SetGen] expands to [x];
    [None] when the fuel runs out before the loop ends. *)
Definition __gen_send (fuel : nat) (x : list Packet) (loop : Z)
    (count : option Z) (verbose : Z) (return_packets : bool)
    (interrupt_after : option nat) : option Tx :=
  while_loop fuel verbose x (effective_loop loop count)
    (mkTx [] 0 (if return_packets then Some [] else None) O
       interrupt_after false).

(** What holds of the engine's record all along, for an interrupt that
    arrives after [limit] sends: the counter is the number of sends, the
    collected list is what was sent, the sends made and the sends left
    before the interrupt add up to [limit], and an interrupted engine has
    made them all. *)
Definition consistent (return_packets : bool) (limit : option nat)
    (tx : Tx) : Prop :=
  n tx = Z.of_nat (length (sock tx)) ∧
  sent_packets tx = (if return_packets then Some (sock tx) else None) ∧
  intr tx = (λ k, k - length (sock tx))%nat <$> limit ∧
  (∀ k, limit = Some k → (length (sock tx) ≤ k)%nat) ∧
  (interrupted tx = true → limit = Some (length (sock tx))).

End Send.
End GenSend.

(** ** The flood controller: [_FloodGenerator] *)

Module Flood.
Section Gen.
Context {Packet : Type}.

(** [if self.maxretries and i >= self.maxretries] *)
Definition retries_reached (maxretries : option Z) (i : Z) : bool :=
  match maxretries with
  | Some m => truthy m && (m <=? i)
  | None => false
  end.

(** [for p in self.tobesent: if self.stopevent.is_set(): return
      j += 1; yield p].
    [stop] is the number of packets the consumer still takes before the
    stop event is set ([None]: it is never set).  The result is what was
    yielded, [j], the budget left, and whether the generator returned. *)
Fixpoint cycle (tobesent : list Packet) (stop : option nat) (j : Z) :
    list Packet * Z * option nat * bool :=
  match tobesent with
  | [] => ([], j, stop, false)
  | p :: rest =>
      match stop with
      | Some O => ([], j, stop, true)
      | _ =>
          let '(ys, j', stop', returned) :=
            cycle rest
              (match stop with Some k => Some (Nat.pred k) | None => None end)
              (j + 1) in
          (p :: ys, j', stop', returned)
      end
  end.

(** [_FloodGenerator.__iter__]: the packets yielded until the generator
    returns and the final [iterlen]; [None] when it is still running
    after [fuel] rounds of [while True]. *)
Fixpoint iterate (fuel : nat) (tobesent : list Packet)
    (maxretries : option Z) (stop : option nat) (i iterlen : Z) :
    option (list Packet * Z) :=
  match fuel with
  | O => None
  | S fuel' =>
      let i := i + 1 in
      if retries_reached maxretries i then Some ([], iterlen)
      else
        let '(ys, j, stop', returned) := cycle tobesent stop 0 in
        if returned then Some (ys, iterlen)
        else
          let iterlen' := if iterlen =? 0 then j else iterlen in
          '(zs, il) ← iterate fuel' tobesent maxretries stop' i iterlen';
          Some (ys ++ zs, il)
  end.

(** [iter(_FloodGenerator(tobesent, maxretries))], from [i = 0] and
    [iterlen = 0]. *)
Definition _FloodGenerator (fuel : nat) (tobesent : list Packet)
    (maxretries : option Z) (stop : option nat) : option (list Packet * Z) :=
  iterate fuel tobesent maxretries stop 0 0.

End Gen.
End Flood.

(** ** Python exceptions and results *)

(** An exception object: its class, its message, and whether the class
    derives from [Exception] ([KeyboardInterrupt] and [SystemExit] do
    not, so [except Exception] lets them pass). *)
Record Exn := mkExn {
  exn_class : string;
  exn_msg : string;
  is_Exception : bool
}.

#[global] Instance Exn_eq_dec : EqDecision Exn.
Proof. solve_decision. Defined.

Definition Scapy_Exception (msg : string) : Exn :=
  mkExn "Scapy_Exception" msg true.

(** A call either raises or returns. *)
Inductive Res (A : Type) :=
| Raise (e : Exn)
| Return (a : A).
Arguments Raise {A} e.
Arguments Return {A} a.

#[global] Instance Res_bind : MBind Res := λ A B k r,
  match r with
  | Raise e => Raise e
  | Return a => k a
  end.

#[global] Instance Res_ret : MRet Res := λ A a, Return a.

(** ** The sniffer engine: [AsyncSniffer] *)

Module Sniff.
Section Sniffer.
Context {Packet : Type}.

Definition Socket := nat.
Definition Label := string.

(** A packet as the callbacks after [lfilter] see it: tagged with
    [p.sniffed_on = sniff_sockets.get(s, None)]. *)
Definition Tagged : Type := Packet * option Label.

(** How the iteration over [session.recv(s)] ends when it is not left by
    [break]: normally, by [EOFError], or by another exception. *)
Inductive RecvEnd := EndOk | EndEOF | EndError (e : Exn).

(** One socket that [select] returned ready, with what [session.recv]
    yields for it. *)
Record Ready := mkReady {
  rsock : Socket;
  yielded : list Packet;
  rend : RecvEnd
}.

(** One round of the main loop as the environment decides it: whether the
    deadline has passed ([remain <= 0], read only with a timeout), whether
    another thread called [stop_cb] while [select] was waiting, and the
    batch [select] returns. *)
Record Round := mkRound {
  expired : bool;
  ext_stop : bool;
  ready : list Ready
}.

(** The arguments of [_run] that the main loop reads. *)
Record Config := mkConfig {
  count : Z;
  store : bool;
  prn : option (Tagged → option string);
  lfilter : option (Packet → bool);
  stop_filter : option (Tagged → bool);
  timeout : bool;                 (* [timeout is not None] *)
  close_pipe : option Socket;     (* the control socket of a blocking select *)
  debug_dissector : Z             (* [conf.debug_dissector] *)
}.

(** The loop's variables. *)
Record Loop := mkLoop {
  self_count : Z;
  lst : list Tagged;
  continue_sniff : bool;
  sniff_sockets : list (Socket * Label);
  prn_calls : list Tagged;        (* arguments of [prn], in order *)
  printed : list string;          (* [print(result)] *)
  closed : list Socket            (* [s.close()] *)
}.

Variable cfg : Config.

Definition call_opt {A : Type} (f : option (A → bool)) (a : A) : bool :=
  match f with Some g => g a | None => false end.

(** The post-processing of an accepted packet:
    [self.count += 1], [lst.append(p)], [prn(p)] and its print. *)
Definition accept (p : Tagged) (st : Loop) : Loop :=
  mkLoop (self_count st + 1)
    (if store cfg then lst st ++ [p] else lst st)
    (continue_sniff st) (sniff_sockets st)
    (match prn cfg with Some _ => prn_calls st ++ [p] | None => prn_calls st end)
    (match prn cfg with
     | Some f =>
         match f p with Some out => printed st ++ [out] | None => printed st end
     | None => printed st
     end)
    (closed st).

Definition set_continue (b : bool) (st : Loop) : Loop :=
  mkLoop (self_count st) (lst st) b (sniff_sockets st) (prn_calls st)
    (printed st) (closed st).

Definition rejected (p : Packet) : bool :=
  match lfilter cfg with Some f => negb (f p) | None => false end.

(** [for p in packets: ...] for the socket labelled [lbl]; the boolean
    tells that the loop was left by its [break]. *)
Fixpoint for_packets (lbl : option Label) (ps : list Packet) (st : Loop) :
    Loop * bool :=
  match ps with
  | [] => (st, false)
  | p :: ps' =>
      (* if lfilter and not lfilter(p): continue *)
      if rejected p then for_packets lbl ps' st
      else
        let st1 := accept (p, lbl) st in
        if call_opt (stop_filter cfg) (p, lbl)
           || ((0 <? count cfg) && (count cfg <=? self_count st1))
        then (set_continue false st1, true)
        else for_packets lbl ps' st1
  end.

Definition close_socket (s : Socket) (st : Loop) : Loop :=
  mkLoop (self_count st) (lst st) (continue_sniff st) (sniff_sockets st)
    (prn_calls st) (printed st) (closed st ++ [s]).

(** [for s in sockets: ...] over one batch; the result is the loop state
    and [dead_sockets], or the exception re-raised under
    [conf.debug_dissector >= 2].  The [break] of the packet loop leaves
    that loop only: the next ready socket of the batch is read. *)
Fixpoint for_sockets (rs : list Ready) (st : Loop) (dead : list Socket) :
    Res (Loop * list Socket) :=
  match rs with
  | [] => Return (st, dead)
  | r :: rs' =>
      if bool_decide (Some (rsock r) = close_pipe cfg) then Return (st, dead)
      else
        let '(st1, broke) :=
          for_packets (PyDict.get (rsock r) (sniff_sockets st)) (yielded r) st in
        if broke then for_sockets rs' st1 dead
        else
          match rend r with
          | EndOk => for_sockets rs' st1 dead
          | EndEOF =>
              for_sockets rs' (close_socket (rsock r) st1) (dead ++ [rsock r])
          | EndError e =>
              if 2 <=? debug_dissector cfg then Raise e
              else
                for_sockets rs' (close_socket (rsock r) st1)
                  (dead ++ [rsock r])
          end
  end.

(** [for s in dead_sockets: del sniff_sockets[s]; ...] *)
Fixpoint remove_dead (dead : list Socket) (socks : list (Socket * Label)) :
    list (Socket * Label) :=
  match dead with
  | [] => socks
  | s :: dead' =>
      let socks1 := PyDict.del s socks in
      let socks2 :=
        match close_pipe cfg with
        | Some cp =>
            if bool_decide (length socks1 = 1%nat) && PyDict.mem cp socks1
            then PyDict.del cp socks1 else socks1
        | None => socks1
        end in
      remove_dead dead' socks2
  end.

Definition set_sockets (socks : list (Socket * Label)) (st : Loop) : Loop :=
  mkLoop (self_count st) (lst st) (continue_sniff st) socks (prn_calls st)
    (printed st) (closed st).

(** How the main loop ends. *)
Inductive Outcome :=
| Finished (st : Loop)          (* the [while] loop was left *)
| Raised (e : Exn) (st : Loop)  (* an exception left [_run] *)
| Waiting (st : Loop).          (* [select] waits: the rounds given are used up *)

(** [while sniff_sockets and self.continue_sniff: ...] *)
Fixpoint main_loop (rounds : list Round) (st : Loop) : Outcome :=
  if bool_decide (sniff_sockets st = []) || negb (continue_sniff st)
  then Finished st
  else
    match rounds with
    | [] => Waiting st
    | rd :: rounds' =>
        if timeout cfg && expired rd then Finished st
        else
          let st0 := if ext_stop rd then set_continue false st else st in
          match for_sockets (ready rd) st0 [] with
          | Raise e => Raised e st0
          | Return (st1, dead) =>
              main_loop rounds'
                (set_sockets (remove_dead dead (sniff_sockets st1)) st1)
          end
    end.

(** [_run] from the point where the sockets are assembled:
    [self.count = 0; lst = []; self.continue_sniff = True], the main loop,
    and [self.results = PacketList(lst)] when it returns. *)
Definition _run (socks : list (Socket * Label)) (rounds : list Round) :
    Outcome :=
  main_loop rounds (mkLoop 0 [] true socks [] [] []).

Definition results (o : Outcome) : option (list Tagged) :=
  match o with
  | Finished st => Some (lst st)
  | _ => None
  end.

(** The loop's variables when the main loop is left or waits. *)
Definition state_of (o : Outcome) : Loop :=
  match o with
  | Finished st | Raised _ st | Waiting st => st
  end.

(** The packets of a list that [lfilter] accepts. *)
Definition accepted (ps : list Packet) : list Packet :=
  filter (λ p, rejected p = false) ps.

(** *** The object: [start], [stop], [join] *)

(** The three closures [self.stop_cb] can hold. *)
Inductive StopCb :=
| CbInit    (* [lambda: None], set by [__init__] *)
| CbPipe    (* blocking select: write to the control pipe, clear the flag *)
| CbFlag.   (* non-blocking select: clear the flag *)

Record Sniffer := mkSniffer {
  running : bool;
  thread : option nat;                  (* the worker, by its identity *)
  sn_results : option (list Tagged);
  exception : option Exn;
  stop_cb : StopCb;
  sn_continue : option bool;            (* [None]: the attribute does not exist yet *)
  pipe_sent : nat                       (* [close_pipe.send(None)] calls *)
}.

(** [AsyncSniffer.__init__] *)
Definition new_sniffer : Sniffer :=
  mkSniffer false None None None CbInit None O.

(** [self.stop_cb()] *)
Definition call_stop_cb (sn : Sniffer) : Sniffer :=
  match stop_cb sn with
  | CbInit => sn
  | CbPipe =>
      mkSniffer (running sn) (thread sn) (sn_results sn) (exception sn)
        (stop_cb sn) (Some false)
        (if running sn then S (pipe_sent sn) else pipe_sent sn)
  | CbFlag =>
      mkSniffer (running sn) (thread sn) (sn_results sn) (exception sn)
        (stop_cb sn) (Some false) (pipe_sent sn)
  end.

(** What the worker thread leaves behind once it has ended is the
    environment's: [thread_end] maps the object to its state then. *)
Variable thread_end : Sniffer → Sniffer.

(** [join]: wait for the worker, then re-raise what it caught. *)
Definition join (sn : Sniffer) : Sniffer * Res unit :=
  let sn1 := match thread sn with Some _ => thread_end sn | None => sn end in
  match exception sn1 with
  | Some e => (sn1, Raise e)
  | None => (sn1, Return tt)
  end.

(** [stop(self, join=True)] *)
Definition stop (do_join : bool) (sn : Sniffer) :
    Sniffer * Res (option (list Tagged)) :=
  if running sn then
    let sn1 := call_stop_cb sn in
    match sn_continue sn1 with
    | None =>
        (sn1, Raise (mkExn "AttributeError"
                       "'AsyncSniffer' object has no attribute 'continue_sniff'"
                       true))
    | Some true =>
        (sn1, Raise (Scapy_Exception
                       "Unsupported (offline or unsupported socket)"))
    | Some false =>
        if do_join then
          match join sn1 with
          | (sn2, Raise e) => (sn2, Raise e)
          | (sn2, Return _) => (sn2, Return (sn_results sn2))
          end
        else (sn1, Return None)
    end
  else (sn, Raise (Scapy_Exception "Not running ! (check .running attr)")).

End Sniffer.
End Sniff.

(** ** The replay-tool output parser: [_parse_tcpreplay_result] *)

Module Replay.

(** The two converters of the table [elements]. *)
Inductive Typ := TInt | TFloat.

(** The values the result map holds: converted numbers (a float is kept
    as its decimal text), the command line, and the warnings. *)
Inductive Value :=
| VNum (ty : Typ) (text : string)
| VStr (s : string)
| VList (l : list string).

(** [elements] *)
Definition elements : list (string * list Typ) :=
  [ ("actual", [TInt; TInt; TFloat]);
    ("rated", [TFloat; TFloat; TFloat]);
    ("flows", [TInt; TFloat; TInt; TInt]);
    ("attempted", [TInt]);
    ("successful", [TInt]);
    ("failed", [TInt]);
    ("truncated", [TInt]);
    ("retried packets (eno", [TInt]);
    ("retried packets (eag", [TInt]) ].

(** [multi] *)
Definition multi : list (string * list string) :=
  [ ("actual", ["packets"; "bytes"; "time"]);
    ("rated", ["bps"; "mbps"; "pps"]);
    ("flows", ["flows"; "fps"; "flow_packets"; "non_flow"]);
    ("retried packets (eno", ["retried_enobufs"]);
    ("retried packets (eag", ["retried_eagain"]) ].

(** The keys a result map can hold: the names of [multi], the elements
    without an entry in [multi], and the two keys set last. *)
Definition result_keys : list string :=
  [ "packets"; "bytes"; "time"; "bps"; "mbps"; "pps";
    "flows"; "fps"; "flow_packets"; "non_flow";
    "attempted"; "successful"; "failed"; "truncated";
    "retried_enobufs"; "retried_eagain"; "command"; "warnings" ].

(** [multi.get(elt, [elt])] *)
Definition names_of (elt : string) : list string :=
  default [elt] (PyDict.get elt multi).

Definition float_reg : string := "([0-9]*\.[0-9]+|[0-9]+)".
Definition int_reg : string := "([0-9]+)".
Definition any_reg : string := "[^0-9]*".

(** [r_types] *)
Definition r_types (ty : Typ) : string :=
  match ty with TInt => int_reg | TFloat => float_reg end.

Section Parse.

(** The library calls of the body, each of which may raise:
    [plain_str] (scapy.compat), [str.lower], [str.strip],
    [str.split("\n")], [re.search] (the groups of the match, or [None]),
    and the converters [int] and [float]. *)
Variable plain_str : bytes → Res string.
Variable lower : string → string.
Variable strip : string → string.
Variable split_lines : string → list string.
Variable re_search : string → string → Res (option (list string)).
Variable convert : Typ → string → Res Value.

(** [conf.interactive] *)
Variable interactive : bool.

Definition IndexError : Exn := mkExn "IndexError" "no such group" true.

(** [for i, typ in enumerate(_types):
       name = multi.get(elt, [elt])[i]
       if matches: results[name] = typ(matches.group(i + 1))] *)
Fixpoint for_types (elt : string) (matches : option (list string))
    (i : nat) (types : list Typ) (results : list (string * Value)) :
    Res (list (string * Value)) :=
  match types with
  | [] => Return results
  | typ :: types' =>
      match default [elt] (PyDict.get elt multi) !! i with
      | None => Raise (mkExn "IndexError" "list index out of range" true)
      | Some name =>
          match matches with
          | None => for_types elt matches (S i) types' results
          | Some groups =>
              match groups !! i with
              | None => Raise IndexError
              | Some g =>
                  v ← convert typ g;
                  for_types elt matches (S i) types'
                    (PyDict.set name v results)
              end
          end
      end
  end.

(** [for elt, _types in elements.items():
       if line.startswith(elt): ...] *)
Fixpoint for_elements (line : string) (elts : list (string * list Typ))
    (results : list (string * Value)) : Res (list (string * Value)) :=
  match elts with
  | [] => Return results
  | (elt, types) :: elts' =>
      if String.prefix elt line then
        matches ← re_search (String.concat any_reg (map r_types types)) line;
        results' ← for_types elt matches O types results;
        for_elements line elts' results'
      else for_elements line elts' results
  end.

(** [for line in stdout.split("\n"): line = line.strip(); ...] *)
Fixpoint for_lines (lines : list string) (results : list (string * Value)) :
    Res (list (string * Value)) :=
  match lines with
  | [] => Return results
  | line :: lines' =>
      results' ← for_elements (strip line) elements results;
      for_lines lines' results'
  end.

(** The body of the [try]. *)
Definition parse_body (stdout_b stderr_b : bytes) (argv : list string) :
    Res (list (string * Value)) :=
  out ← plain_str stdout_b;
  let stdout := lower out in
  err ← plain_str stderr_b;
  let stderr := split_lines (strip err) in
  results ← for_lines (split_lines stdout) [];
  let results1 := PyDict.set "command" (VStr (String.concat " " argv)) results in
  (* stderr[:-1] *)
  Return (PyDict.set "warnings" (VList (removelast stderr)) results1).

(** [_parse_tcpreplay_result(stdout_b, stderr_b, argv)]: what is written
    with [log_runtime.error], and what the call returns or raises. *)
Definition _parse_tcpreplay_result (stdout_b stderr_b : bytes)
    (argv : list string) : list string * Res (list (string * Value)) :=
  match parse_body stdout_b stderr_b argv with
  | Return results => ([], Return results)
  | Raise parse_exception =>
      if is_Exception parse_exception then
        (* except Exception as parse_exception: *)
        if negb interactive then ([], Raise parse_exception)
        else
          (["Error parsing output: " ++ exn_msg parse_exception]%string,
           Return [])
      else ([], Raise parse_exception)
  end.

End Parse.
End Replay.

(** ** The bridge forwarder: [prn_send] of [bridge_and_sniff] *)

Module Bridge.
Section Forward.
Context {Packet : Type}.

Definition Label := string.
Definition Socket := nat.

(** What a transform can do: hand back a [bool], [None] or a packet, or
    raise an [Exception]. *)
Inductive XfrmOut :=
| XBool (b : bool)
| XNone
| XPacket (p : Packet)
| XRaise.

(** The argument of [sendsock.send]: a packet, or [None]. *)
Inductive SendArg :=
| ArgPacket (p : Packet)
| ArgNone.

(** What [prn_send] does to the world. *)
Inductive Effect :=
| CallSend (s : Socket) (a : SendArg)  (* [sendsock.send(newpkt)] *)
| Warning (msg : string).              (* [log_runtime.warning] *)

(** [peers = {if1: sckt2, if2: sckt1}] *)
Definition mk_peers (if1 if2 : Label) (sckt1 sckt2 : Socket) :
    list (Label * Socket) :=
  PyDict.set if2 sckt1 (PyDict.set if1 sckt2 []).

(** [xfrms = {}; if xfrm12 is not None: xfrms[if1] = xfrm12; ...] *)
Definition mk_xfrms (if1 if2 : Label) (xfrm12 xfrm21 : option (Packet → XfrmOut)) :
    list (Label * (Packet → XfrmOut)) :=
  let x1 := match xfrm12 with Some f => PyDict.set if1 f [] | None => [] end in
  match xfrm21 with Some f => PyDict.set if2 f x1 | None => x1 end.

Variable peers : list (Label * Socket).
Variable xfrms : list (Label * (Packet → XfrmOut)).
(** Whether [sendsock.send(arg)] raises. *)
Variable send_raises : Socket → SendArg → bool.

(** The last [try]: the call of [send], and the warning when it raises. *)
Definition forward (sendsock : Socket) (newpkt : SendArg) : list Effect :=
  if send_raises sendsock newpkt
  then [CallSend sendsock newpkt; Warning "Cannot forward packet"]
  else [CallSend sendsock newpkt].

(** [prn_send(pkt)], for a packet whose attribute [sniffed_on] is
    [sniffed_on]. *)
Definition prn_send (pkt : Packet) (sniffed_on : option Label) : list Effect :=
  (* sendsock = peers[pkt.sniffed_on or ""] *)
  match PyDict.get (default ""%string sniffed_on) peers with
  | None => []                                   (* except KeyError: return *)
  | Some sendsock =>
      match sniffed_on ≫= (λ l, PyDict.get l xfrms) with
      | Some xfrm =>
          match xfrm pkt with
          | XRaise =>
              [Warning "Exception in transformation function -- dropping"]
          | XBool b =>
              (* if isinstance(_newpkt, bool): *)
              if negb b then [] else forward sendsock (ArgPacket pkt)
          | XNone => forward sendsock ArgNone       (* newpkt = _newpkt *)
          | XPacket q => forward sendsock (ArgPacket q)
          end
      | None => forward sendsock (ArgPacket pkt)
      end
  end.

End Forward.
End Bridge.

(** ** Fast sending: the command line of [sendpfast] *)

Module FastSend.
Section Argv.

(** Python floats are not modelled: [Float] is their type and [fmt_f x]
    is ["%f" % x]. *)
Variable Float : Type.
Variable fmt_f : Float → string.

(** [realtime] is declared [bool] with default [False], and documented as
    a factor: both are formatted with ["%f"]. *)
Inductive Realtime :=
| RtBool (b : bool)
| RtFloat (x : Float).

Definition fmt_realtime (r : Realtime) : string :=
  match r with
  | RtBool true => "1.000000"
  | RtBool false => "0.000000"
  | RtFloat x => fmt_f x
  end.

(** [if pps is not None: ... elif mbps is not None: ...
     elif realtime is not None: ... else: argv.append("--topspeed")] *)
Definition rate_option (pps mbps : option Float)
    (realtime : option Realtime) : string :=
  match pps, mbps, realtime with
  | Some p, _, _ => "--pps=" +:+ fmt_f p
  | None, Some m, _ => "--mbps=" +:+ fmt_f m
  | None, None, Some r => "--multiplier=" +:+ fmt_realtime r
  | None, None, None => "--topspeed"
  end.

Definition AssertionError : Exn :=
  mkExn "AssertionError"
    "Can't use loop and count at the same time in sendpfast" true.

(** [if count: assert not loop, ...; argv.append("--loop=%i" % count)
     elif loop: argv.append("--loop=0")] *)
Definition loop_option (count : option Z) (loop : Z) : Res (list string) :=
  if truthy (default 0 count) then
    if truthy loop then Raise AssertionError
    else Return ["--loop=" +:+ pretty (default 0 count)]
  else if truthy loop then Return ["--loop=0"]
  else Return [].

(** The list [argv] that [sendpfast] hands to [subprocess.Popen], for the
    program [conf.prog.tcpreplay], the name of the interface and the
    temporary file [f] the packets are written to. *)
Definition sendpfast_argv (tcpreplay iface_name : string)
    (pps mbps : option Float) (realtime : option Realtime)
    (count : option Z) (loop : Z) (file_cache : bool)
    (replay_args : option (list string)) (f : string) : Res (list string) :=
  loop_args ← loop_option count loop;
  Return ([tcpreplay; "--intf1=" +:+ iface_name;
           rate_option pps mbps realtime]
          ++ loop_args
          ++ (if file_cache then ["--preload-pcap"] else [])
          ++ default [] replay_args
          ++ [f]).

End Argv.
End FastSend.

(** ** The loop controller: [__sr_loop] *)

Module SrLoop.
Section Loop.
Context {Packet : Type}.

(** What one call [srfunc(pkts, timeout=timeout, verbose=0, chainCC=True)]
    returns is the environment's: [srfunc k] is the result of call
    number [k]. *)
Variable srfunc : nat → list (Packet * Packet) * list Packet.

Record Acc := mkAcc {
  n : Z;
  r : Z;
  parity : bool;
  ans : list (Packet * Packet);
  unans : list Packet;
  calls : nat                 (* calls of [srfunc] made so far *)
}.

(** [if timeout is None: timeout = min(2 * inter, 5)] *)
Definition effective_timeout (timeout : option Z) (inter : Z) : Z :=
  match timeout with
  | Some t => t
  | None => Z.min (2 * inter) 5
  end.

(** One round of [while True:] from the call of [srfunc] on. *)
Definition round (store : Z) (acc : Acc) : Acc :=
  let res := srfunc (calls acc) in
  mkAcc (n acc + Z.of_nat (length res.1) + Z.of_nat (length res.2))
    (r acc + Z.of_nat (length res.1))
    (parity acc)
    (if truthy store then ans acc ++ res.1 else ans acc)
    (if truthy store then unans acc ++ res.2 else unans acc)
    (S (calls acc)).

Definition flip (acc : Acc) : Acc :=
  mkAcc (n acc) (r acc) (negb (parity acc)) (ans acc) (unans acc) (calls acc).

(** [while True: parity ^= 1; if count is not None: if count == 0: break;
    count -= 1; res = srfunc(...); ...].  [intr] is the number of calls
    of [srfunc] that end before the user's [KeyboardInterrupt] arrives
    ([None]: never); the interrupt leaves the loop.  [None] as a result:
    the loop is still running after [fuel] rounds. *)
Fixpoint while_true (fuel : nat) (count : option Z) (store : Z)
    (intr : option nat) (acc : Acc) : option Acc :=
  match fuel with
  | O => None
  | S fuel' =>
      let acc1 := flip acc in
      match count with
      | Some 0 => Some acc1
      | _ =>
          match intr with
          | Some O => Some acc1
          | _ =>
              while_true fuel' (Z.pred <$> count) store (Nat.pred <$> intr)
                (round store acc1)
          end
      end
  end.

(** [__sr_loop(srfunc, pkts, inter, timeout, count, store)]: the lists
    it returns and its counters. *)
Definition __sr_loop (fuel : nat) (count : option Z) (store : Z)
    (intr : option nat) : option Acc :=
  while_true fuel count store intr (mkAcc 0 0 false [] [] O).

End Loop.
End SrLoop.

(** ** A stub packet layer

    The packets of the specification's scenarios, by number: the stimuli
    [A], [B], [C] are 1, 2, 3; a packet [10 * k + n] with [k > 0] is a
    reply that answers the stimulus [n]; the fingerprints are [h1] for
    [A] and [C] and [h2] for [B], and a reply shares the fingerprint of
    its stimulus. *)

Module Stub.

Definition hashret (p : nat) : bytes :=
  if bool_decide (p mod 10 = 2)%nat then [x02] else [x01].

Definition answers (r s : nat) : bool :=
  bool_decide (10 ≤ r)%nat && bool_decide (r mod 10 = s)%nat.

(** A schedule that lets the sender send [n] stimuli and finish. *)
Definition send_all (n : nat) : list (@SndRcv.Event nat) :=
  replicate (3 * n + 1) SndRcv.SndStep.

(** The replies, handed to the dispatcher in order. *)
Definition receive (rs : list nat) : list (@SndRcv.Event nat) :=
  map (λ r, SndRcv.Rcv (Some r)) rs.

End Stub.

(** * Properties *)

(** ** Dictionaries *)

Section DictFacts.
Context {K V : Type} `{EqDecision K}.
Implicit Types (d : list (K * V)) (k : K) (v : V).

Lemma get_set_eq k v d : PyDict.get k (PyDict.set k v d) = Some v.
Proof.
  induction d as [|[k' w] d IH]; simpl.
  - by rewrite decide_True.
  - destruct (decide (k' = k)) as [->|Hne]; simpl.
    + by rewrite decide_True.
    + by rewrite decide_False.
Qed.

Lemma get_set_ne k k' v d :
  k ≠ k' → PyDict.get k' (PyDict.set k v d) = PyDict.get k' d.
Proof.
  intros Hne. induction d as [|[k0 w] d IH]; simpl.
  - by rewrite decide_False.
  - destruct (decide (k0 = k)) as [->|Hne0]; simpl.
    + by rewrite !decide_False.
    + by rewrite IH.
Qed.

Lemma mem_set k v d : PyDict.mem k (PyDict.set k v d) = true.
Proof. unfold PyDict.mem. by rewrite get_set_eq. Qed.

Lemma mem_set_other k k' v d :
  PyDict.mem k' d = true → PyDict.mem k' (PyDict.set k v d) = true.
Proof.
  unfold PyDict.mem. destruct (decide (k = k')) as [->|Hne].
  - by rewrite get_set_eq.
  - by rewrite get_set_ne.
Qed.

End DictFacts.

(** ** The outstanding table *)

Section TableFacts.
Context {Packet : Type} `{EqDecision Packet}.
Implicit Types (d : list (bytes * list Packet)) (h : bytes) (p s : Packet).

(** Writing a bucket changes the chained values at the place of that
    bucket only. *)
Lemma chain_values_set h (l : list Packet) d :
  ∃ pre post,
    SndRcv.chain_values d = pre ++ default [] (PyDict.get h d) ++ post ∧
    SndRcv.chain_values (PyDict.set h l d) = pre ++ l ++ post.
Proof.
  unfold SndRcv.chain_values, PyDict.values.
  induction d as [|[k w] d (pre & post & IH1 & IH2)]; simpl.
  - exists [], []. by rewrite !app_nil_r.
  - destruct (decide (k = h)) as [->|Hne]; simpl.
    + by exists [], (concat (map snd d)).
    + exists (w ++ pre), post. rewrite IH1, IH2. by rewrite <- !app_assoc.
Qed.

Lemma chain_values_append h p d :
  SndRcv.chain_values (SndRcv.setdefault_append h p d)
    ≡ₚ p :: SndRcv.chain_values d.
Proof.
  unfold SndRcv.setdefault_append.
  destruct (chain_values_set h (default [] (PyDict.get h d) ++ [p]) d)
    as (pre & post & -> & ->).
  rewrite <- app_assoc. simpl.
  rewrite (Permutation_middle). 
  by rewrite !Permutation_middle.
Qed.

End TableFacts.

(** ** The reply dispatcher *)

Section DispatcherFacts.
Context {Packet : Type} `{EqDecision Packet}.
Variable hashret : Packet → bytes.
Variable answers : Packet → Packet → bool.

Local Abbreviation State := (@SndRcv.State Packet).
Local Abbreviation first_match := (SndRcv.first_match hashret answers).
Local Abbreviation _process_packet := (SndRcv._process_packet hashret answers).
Local Abbreviation bucket := SndRcv.bucket.
Local Abbreviation occurrences := SndRcv.occurrences.

Implicit Types (st : State) (r s p : Packet).

Lemma occurrences_app s (l k : list Packet) :
  occurrences s (l ++ k) = (occurrences s l + occurrences s k)%nat.
Proof. unfold SndRcv.occurrences. by rewrite filter_app, length_app. Qed.

Lemma occurrences_cons s x (l : list Packet) :
  occurrences s (x :: l)
  = ((if decide (x = s) then 1 else 0) + occurrences s l)%nat.
Proof.
  unfold SndRcv.occurrences. rewrite filter_cons.
  by destruct (decide (x = s)).
Qed.

Lemma occurrences_perm s (l k : list Packet) :
  l ≡ₚ k → occurrences s l = occurrences s k.
Proof. unfold SndRcv.occurrences. intros Hp. by rewrite Hp. Qed.

Lemma occurrences_NoDup s (l : list Packet) :
  NoDup l → (occurrences s l ≤ 1)%nat.
Proof.
  induction 1 as [|x l Hx _ IH]; [cbv; lia|].
  rewrite occurrences_cons. destruct (decide (x = s)) as [->|]; [|lia].
  unfold SndRcv.occurrences in *.
  destruct (filter (λ x, x = s) l) as [|y k] eqn:E; [simpl; lia|].
  assert (y ∈ filter (λ x, x = s) l) as Hy by (rewrite E; left).
  apply list_elem_of_filter in Hy as [-> Hy]. done.
Qed.

(** What a successful search of the bucket gives. *)
Lemma first_match_Some r st i s :
  first_match r st = Some (i, s) →
  PyDict.get (hashret r) (SndRcv.hsent st) = Some (bucket (hashret r) st) ∧
  bucket (hashret r) st !! i = Some s ∧
  answers r s = true ∧
  ∀ j y, bucket (hashret r) st !! j = Some y → (j < i)%nat → answers r y = false.
Proof.
  unfold SndRcv.first_match, SndRcv.bucket.
  destruct (PyDict.get (hashret r) (SndRcv.hsent st)) as [hlst|]; [|done].
  simpl. intros (Hi & Hs & Hfirst)%list_find_Some.
  repeat split; try done.
  intros j y Hj Hlt. specialize (Hfirst j y Hj Hlt).
  by destruct (answers r y).
Qed.

(** [_stop_sniffer_if_done] only asks the sniffer to stop. *)
Lemma stop_sniffer_fields multi st :
  let st' := SndRcv._stop_sniffer_if_done multi st in
  SndRcv.hsent st' = SndRcv.hsent st ∧ SndRcv.ans st' = SndRcv.ans st ∧
  SndRcv.noans st' = SndRcv.noans st ∧ SndRcv.notans st' = SndRcv.notans st ∧
  SndRcv.nbrecv st' = SndRcv.nbrecv st ∧
  SndRcv.has_answered st' = SndRcv.has_answered st ∧
  SndRcv.wire st' = SndRcv.wire st ∧ SndRcv.snd_iter st' = SndRcv.snd_iter st ∧
  SndRcv.snd_i st' = SndRcv.snd_i st ∧ SndRcv.snd_pc st' = SndRcv.snd_pc st ∧
  SndRcv.breakout st' = SndRcv.breakout st ∧
  SndRcv._send_done st' = SndRcv._send_done st.
Proof.
  unfold SndRcv._stop_sniffer_if_done.
  by destruct (_ && _ && _).
Qed.

End DispatcherFacts.

(** ** One pass of the coordinator *)

Section PassFacts.
Context {Packet : Type} `{EqDecision Packet}.
Variable hashret : Packet → bytes.
Variable answers : Packet → Packet → bool.
Variable multi : bool.

Local Abbreviation State := (@SndRcv.State Packet).
Local Abbreviation Event := (@SndRcv.Event Packet).
Local Abbreviation step := (SndRcv.step hashret answers multi).
Local Abbreviation run := (SndRcv.run hashret answers multi).
Local Abbreviation Transition := (SndRcv.Transition hashret answers multi).

Implicit Types (st : State) (e : Event) (sched : list Event).

Ltac stop_cases :=
  unfold SndRcv._stop_sniffer_if_done;
  repeat match goal with
         | |- context [if ?b then _ else _] => destruct b
         end; simpl.

Lemma finish_transition st : Transition st (SndRcv.snd_finish multi st).
Proof.
  unfold SndRcv.snd_finish. apply SndRcv.TQuiet; stop_cases; auto.
Qed.

Lemma snd_step_transition ok st :
  Transition st (SndRcv.snd_step hashret multi ok st).
Proof.
  unfold SndRcv.snd_step.
  destruct (SndRcv.snd_pc st) as [|p| |] eqn:Hpc.
  - destruct (SndRcv.snd_iter st) as [|p rest] eqn:Hit.
    + apply finish_transition.
    + by eapply SndRcv.TInsert.
  - destruct ok.
    + by eapply SndRcv.TSend.
    + apply finish_transition.
  - destruct (SndRcv.breakout st).
    + apply finish_transition.
    + apply SndRcv.TQuiet; simpl; auto.
  - apply SndRcv.TQuiet; auto.
Qed.

Lemma process_transition r st :
  Transition st (SndRcv._process_packet hashret answers multi r st).
Proof.
  destruct r as [r|]; simpl; [|by apply SndRcv.TQuiet; auto].
  destruct (SndRcv.first_match hashret answers r st) as [[i s]|] eqn:Hm.
  - unfold SndRcv.record_match. destruct multi eqn:Hmulti; simpl.
    + eapply SndRcv.TMatchMulti; eauto; stop_cases; auto.
    + eapply SndRcv.TMatchSingle; eauto; stop_cases; auto.
  - apply SndRcv.TQuiet; unfold SndRcv.count_unmatched; stop_cases; auto.
Qed.

Lemma step_transition e st : Transition st (step e st).
Proof.
  destruct e as [| |r|]; simpl.
  - apply snd_step_transition.
  - destruct (SndRcv.snd_pc st) eqn:Hpc;
      try (apply SndRcv.TQuiet; by auto).
    apply snd_step_transition.
  - apply process_transition.
  - apply SndRcv.TQuiet; simpl; auto.
Qed.

(** An invariant of the transitions holds after every schedule. *)
Lemma run_invariant (P : State → Prop) :
  (∀ st st', Transition st st' → P st → P st') →
  ∀ sched st, P st → P (run sched st).
Proof.
  intros Hstep sched. unfold SndRcv.run.
  induction sched as [|e sched IH]; intros st HP; simpl; [done|].
  apply IH. eapply Hstep; [apply step_transition|done].
Qed.

Lemma run_app sched1 sched2 st :
  run (sched1 ++ sched2) st = run sched2 (run sched1 st).
Proof. unfold SndRcv.run. apply fold_left_app. Qed.

(** Joining the sender is letting it step until it has finished. *)
Lemma join_run n st :
  SndRcv.join hashret multi n st = run (replicate n SndRcv.SndStep) st.
Proof.
  revert st. induction n as [|n IH]; intros st; simpl; [done|].
  destruct (SndRcv.snd_pc st) eqn:Hpc; try apply IH.
  assert (∀ m, run (replicate m SndRcv.SndStep) st = st) as Hfix.
  { induction m as [|m IHm]; simpl; [done|].
    unfold SndRcv.snd_step at 1. by rewrite Hpc. }
  symmetry. apply (Hfix (S n)).
Qed.

(** A pass is a schedule run from [pass_start]. *)
Lemma run_pass_run threaded sched tobesent st :
  ∃ sched',
    SndRcv.run_pass hashret answers multi threaded sched tobesent st
    = run sched' (SndRcv.pass_start tobesent st).
Proof.
  unfold SndRcv.run_pass. destruct threaded.
  - exists (sched ++ SndRcv.SetBreakout :: replicate 4 SndRcv.SndStep).
    by rewrite join_run, run_app.
  - eexists (replicate _ SndRcv.SndStep ++ filter _ sched).
    by rewrite join_run, run_app.
Qed.

End PassFacts.

(** ** Insertion before transmission *)

Section SenderOrder.
Context {Packet : Type} `{EqDecision Packet}.
Variable hashret : Packet → bytes.
Variable answers : Packet → Packet → bool.
Variable multi : bool.

Local Abbreviation State := (@SndRcv.State Packet).
Local Abbreviation Transition := (SndRcv.Transition hashret answers multi).
Local Abbreviation recorded := (SndRcv.recorded hashret).
Local Abbreviation bucket := SndRcv.bucket.
Local Abbreviation send_invariant := (SndRcv.send_invariant hashret).

Implicit Types (st : State) (p : Packet).

Lemma bucket_after_append h h' p (d : list (bytes * list Packet)) :
  default [] (PyDict.get h' (SndRcv.setdefault_append h p d))
  = if decide (h = h') then default [] (PyDict.get h' d) ++ [p]
    else default [] (PyDict.get h' d).
Proof.
  unfold SndRcv.setdefault_append. destruct (decide (h = h')) as [->|Hne].
  - by rewrite get_set_eq.
  - by rewrite get_set_ne.
Qed.

Lemma bucket_after_set h h' (l : list Packet) (d : list (bytes * list Packet)) :
  default [] (PyDict.get h' (PyDict.set h l d))
  = if decide (h = h') then l else default [] (PyDict.get h' d).
Proof.
  destruct (decide (h = h')) as [->|Hne].
  - by rewrite get_set_eq.
  - by rewrite get_set_ne.
Qed.

(** Once recorded, a stimulus stays recorded: the sender only appends,
    and the dispatcher removes a stimulus only as it pairs it. *)
Lemma recorded_mono st st' p :
  Transition st st' → recorded p st → recorded p st'.
Proof.
  unfold SndRcv.recorded, SndRcv.bucket.
  intros [Hh Ha _ _ _ _ _
         |q rest _ _ Hh _ _ Ha _ _ _
         |q _ _ _ Hh Ha _ _ _
         |r i s _ Hm Hh Ha _ _ _ _ _
         |r i s _ _ Hh Ha _ _ _ _ _]; rewrite ?Hh, ?Ha; try done.
  - intros [Hin|Hin]; [left|by right].
    rewrite bucket_after_append. case_decide; [|done].
    apply elem_of_app. by left.
  - apply first_match_Some in Hm as (_ & Hi & _).
    intros [Hin|Hin].
    + rewrite bucket_after_set. case_decide as Hhash; [|by left].
      rewrite <- Hhash in Hin. unfold SndRcv.bucket in Hi.
      rewrite (delete_Permutation _ _ _ Hi) in Hin.
      apply elem_of_cons in Hin as [->|Hin]; [right|by left].
      rewrite map_app. apply elem_of_app. right. simpl. left.
    + right. rewrite map_app. apply elem_of_app. by left.
  - intros [Hin|Hin]; [by left|right].
    rewrite map_app. apply elem_of_app. by left.
Qed.

Lemma send_invariant_step w0 st st' :
  Transition st st' → send_invariant w0 st → send_invariant w0 st'.
Proof.
  intros Ht [Hpc (sent & Hw & Hsent)].
  pose proof (λ p, recorded_mono st st' p Ht) as Hmono.
  destruct Ht as [_ _ _ _ Hw' _ Hpc'
                 |q rest _ _ Hh _ Hpc' _ _ _ Hw'
                 |q Hq Hw' Hpc' _ _ _ _ _
                 |r i s _ _ _ _ _ _ Hw' _ Hpc'
                 |r i s _ _ _ _ _ _ Hw' _ Hpc'].
  - split.
    + intros p Hp. destruct Hpc' as [Heq|[Heq|[_ Heq]]];
        rewrite Heq in Hp; try done. auto.
    + exists sent. rewrite Hw'. auto.
  - split.
    + intros p Hp. rewrite Hpc' in Hp. injection Hp as <-.
      left. unfold SndRcv.bucket. rewrite Hh, bucket_after_append.
      rewrite decide_True by done. apply elem_of_app. right. left.
    + exists sent. rewrite Hw'. auto.
  - split.
    + intros p Hp. by rewrite Hpc' in Hp.
    + exists (sent ++ [q]). rewrite Hw', Hw. split; [by rewrite app_assoc|].
      intros p [Hp|Hp%list_elem_of_singleton]%elem_of_app; subst; auto.
  - split.
    + intros p Hp. rewrite Hpc' in Hp. auto.
    + exists sent. rewrite Hw'. auto.
  - split.
    + intros p Hp. rewrite Hpc' in Hp. auto.
    + exists sent. rewrite Hw'. auto.
Qed.

Lemma send_invariant_start tobesent st :
  send_invariant (SndRcv.wire st) (SndRcv.pass_start tobesent st).
Proof.
  split; [done|]. exists []. simpl. split; [by rewrite app_nil_r|].
  intros p Hp. by apply elem_of_nil in Hp.
Qed.

End SenderOrder.

(** ** Counting stimuli through a pass *)

Section Counting.
Context {Packet : Type} `{EqDecision Packet}.
Variable hashret : Packet → bytes.
Variable answers : Packet → Packet → bool.
Variable multi : bool.

Local Abbreviation State := (@SndRcv.State Packet).
Local Abbreviation Event := (@SndRcv.Event Packet).
Local Abbreviation run := (SndRcv.run hashret answers multi).
Local Abbreviation Transition := (SndRcv.Transition hashret answers multi).
Local Abbreviation occurrences := SndRcv.occurrences.
Local Abbreviation answer_count := SndRcv.answer_count.
Local Abbreviation chain_values := SndRcv.chain_values.
Local Abbreviation run_pass := (SndRcv.run_pass hashret answers multi).
Local Abbreviation remain := (SndRcv.remain multi).
Local Abbreviation whereabouts := SndRcv.whereabouts.

Implicit Types (st : State) (s p : Packet).

(** Removing the matched stimulus from its bucket removes one occurrence
    of it from the chained values. *)
Lemma chain_values_delete r st i s :
  SndRcv.first_match hashret answers r st = Some (i, s) →
  chain_values (SndRcv.hsent st)
  ≡ₚ s :: chain_values
            (PyDict.set (hashret r)
               (delete i (SndRcv.bucket (hashret r) st)) (SndRcv.hsent st)).
Proof.
  intros (Hget & Hi & _)%first_match_Some.
  destruct (chain_values_set (hashret r)
              (delete i (SndRcv.bucket (hashret r) st)) (SndRcv.hsent st))
    as (pre & post & -> & ->).
  rewrite Hget. simpl.
  rewrite (delete_Permutation _ _ _ Hi) at 1.
  simpl. by rewrite <- Permutation_middle.
Qed.

Lemma answer_count_snoc s (l : list (Packet * Packet)) q r :
  answer_count s (l ++ [(q, r)])
  = (answer_count s l + if decide (q = s) then 1 else 0)%nat.
Proof.
  unfold SndRcv.answer_count. rewrite map_app, occurrences_app. simpl.
  rewrite occurrences_cons. change (occurrences s []) with 0%nat. lia.
Qed.

(** In single-answer mode every transition moves a stimulus from one of
    these places to another, or leaves it. *)
Lemma whereabouts_step s st st' :
  multi = false → Transition st st' → whereabouts s st' = whereabouts s st.
Proof.
  intros Hsingle. unfold SndRcv.whereabouts.
  intros [Hh Ha _ _ _ Hi _
         |q rest _ Hq Hh Hi _ Ha _ _ _
         |q _ _ _ Hh Ha _ _ Hi
         |r i s' _ Hm Hh Ha _ _ _ Hi _
         |r i s' Hmulti _ _ _ _ _ _ _ _]; [..|congruence];
    rewrite ?Hh, ?Ha, ?Hi; try done.
  - rewrite Hq, (occurrences_perm _ _ _ (chain_values_append _ q _)).
    rewrite !occurrences_cons. lia.
  - rewrite (occurrences_perm _ _ _ (chain_values_delete _ _ _ _ Hm)).
    rewrite answer_count_snoc, occurrences_cons. lia.
Qed.

(** What a single-answer pass pairs or leaves outstanding was given to it. *)
Lemma pass_answer_count s threaded sched tobesent st :
  multi = false →
  (answer_count s (SndRcv.ans (run_pass threaded sched tobesent st))
   + occurrences s (remain (run_pass threaded sched tobesent st))
   ≤ answer_count s (SndRcv.ans st) + occurrences s tobesent)%nat.
Proof.
  intros Hsingle.
  destruct (run_pass_run hashret answers multi threaded sched tobesent st)
    as [sched' ->].
  assert (whereabouts s (run sched' (SndRcv.pass_start tobesent st))
          = whereabouts s (SndRcv.pass_start tobesent st)) as Hw.
  { apply (run_invariant hashret answers multi
             (λ st', whereabouts s st'
                     = whereabouts s (SndRcv.pass_start tobesent st)));
      [|done].
    intros st1 st2 Ht <-. by apply whereabouts_step. }
  unfold SndRcv.whereabouts in Hw. simpl in Hw.
  change (occurrences s (chain_values [])) with 0%nat in Hw.
  unfold SndRcv.remain. rewrite Hsingle in Hw |- *. lia.
Qed.

(** The chained values and the sender's iterator never grow together. *)
Lemma load_step st st' :
  Transition st st' →
  (length (chain_values (SndRcv.hsent st')) + length (SndRcv.snd_iter st')
   ≤ length (chain_values (SndRcv.hsent st)) + length (SndRcv.snd_iter st))%nat.
Proof.
  intros [Hh _ _ _ _ Hi _
         |q rest _ Hq Hh Hi _ _ _ _ _
         |q _ _ _ Hh _ _ _ Hi
         |r i s' _ Hm Hh _ _ _ _ Hi _
         |r i s' _ _ Hh _ _ _ _ Hi _]; rewrite ?Hh, ?Hi; try done.
  - rewrite Hq, (Permutation_length (chain_values_append _ q _)). simpl. lia.
  - rewrite (Permutation_length (chain_values_delete _ _ _ _ Hm)). simpl. lia.
Qed.

(** A pass leaves at most as many stimuli as it was given. *)
Lemma remain_length threaded sched tobesent st :
  (length (remain (run_pass threaded sched tobesent st)) ≤ length tobesent)%nat.
Proof.
  destruct (run_pass_run hashret answers multi threaded sched tobesent st)
    as [sched' ->].
  set (load := λ st' : State,
         (length (chain_values (SndRcv.hsent st'))
          + length (SndRcv.snd_iter st'))%nat).
  assert (load (run sched' (SndRcv.pass_start tobesent st))
          ≤ load (SndRcv.pass_start tobesent st))%nat as Hl.
  { apply (run_invariant hashret answers multi
             (λ st', (load st' ≤ load (SndRcv.pass_start tobesent st))%nat));
      [|done].
    intros st1 st2 Ht Hle. pose proof (load_step _ _ Ht). unfold load in *.
    lia. }
  unfold load in Hl. simpl in Hl.
  assert (length (remain (run sched' (SndRcv.pass_start tobesent st)))
          ≤ length (chain_values
                      (SndRcv.hsent (run sched' (SndRcv.pass_start tobesent st)))))%nat.
  { unfold SndRcv.remain. destruct multi; [apply length_filter|done]. }
  lia.
Qed.

End Counting.

(** ** Multi-answer mode: the flags and [noans] *)

Section MultiFacts.
Context {Packet : Type} `{EqDecision Packet}.
Variable hashret : Packet → bytes.
Variable answers : Packet → Packet → bool.

Local Abbreviation State := (@SndRcv.State Packet).
Local Abbreviation Transition := (SndRcv.Transition hashret answers true).
Local Abbreviation multi_invariant := SndRcv.multi_invariant.

Implicit Types (st : State) (s p : Packet).

Lemma multi_invariant_step st st' :
  Transition st st' → multi_invariant st → multi_invariant st'.
Proof.
  intros Ht (Hnd & Hn & Hiff). unfold SndRcv.multi_invariant.
  destruct Ht as [_ Ha Hn' Hf _ _ _
                 |q rest _ _ _ _ _ Ha Hn' Hf _
                 |q _ _ _ _ Ha Hn' Hf _
                 |r i s' Hsingle _ _ _ _ _ _ _ _
                 |r i s' _ _ _ Ha Hn' Hf _ _ _]; [..|];
    try (by rewrite Ha, Hn', Hf); [done|].
  rewrite Ha, Hn', Hf, map_app. simpl.
  case_bool_decide as Hflag.
  - repeat split; try done.
    + intros Hs. apply elem_of_app. left. by apply Hiff.
    + intros [Hs|Hs%list_elem_of_singleton]%elem_of_app; [by apply Hiff|].
      by subst.
  - repeat split.
    + apply NoDup_app. repeat split; [done| |apply NoDup_singleton].
      intros x Hx Hx'%list_elem_of_singleton. by subst.
    + rewrite length_app. simpl. lia.
    + intros [Hs|Hs]%elem_of_app; apply elem_of_app; [left|by right].
      by apply Hiff.
    + intros [Hs|Hs]%elem_of_app; apply elem_of_app; [left|by right].
      by apply Hiff.
Qed.

Lemma multi_invariant_pass threaded sched tobesent st :
  multi_invariant st →
  multi_invariant (SndRcv.run_pass hashret answers true threaded sched tobesent st).
Proof.
  intros Hinv.
  destruct (run_pass_run hashret answers true threaded sched tobesent st)
    as [sched' ->].
  apply (run_invariant hashret answers true multi_invariant).
  - intros st1 st2. apply multi_invariant_step.
  - done.
Qed.

(** Under the invariant [noans] is the number of distinct stimuli among
    the recorded pairs. *)
Lemma multi_invariant_noans st :
  multi_invariant st →
  SndRcv.noans st = Z.of_nat (SndRcv.distinct_stimuli (SndRcv.ans st)).
Proof.
  intros (Hnd & -> & Hiff). unfold SndRcv.distinct_stimuli. f_equal.
  apply Permutation_length, NoDup_Permutation;
    [done|apply NoDup_remove_dups|].
  intros s. by rewrite elem_of_remove_dups.
Qed.

End MultiFacts.

(** ** The retry loop *)

Section RetryFacts.
Context {Packet : Type} `{EqDecision Packet}.
Variable hashret : Packet → bytes.
Variable answers : Packet → Packet → bool.
Variable multi : bool.

Local Abbreviation State := (@SndRcv.State Packet).
Local Abbreviation Event := (@SndRcv.Event Packet).
Local Abbreviation retry_loop := (SndRcv.retry_loop hashret answers multi).
Local Abbreviation run_pass := (SndRcv.run_pass hashret answers multi).
Local Abbreviation remain := (SndRcv.remain multi).

Implicit Types (st : State) (env : nat → list Event) (tobesent rem : list Packet).

(** A reset happens only on a pass that left fewer stimuli than it got. *)
Lemma reset_retry_cases autostop retry tobesent rem :
  (SndRcv.reset_retry autostop retry tobesent rem = autostop
   ∧ autostop ≠ 0 ∧ (0 < length rem)%nat ∧ length rem ≠ length tobesent)
  ∨ (SndRcv.reset_retry autostop retry tobesent rem = retry
     ∧ (autostop = 0 ∨ length rem = 0%nat ∨ length rem = length tobesent)).
Proof.
  unfold SndRcv.reset_retry, truthy.
  destruct (Z.eqb_spec autostop 0); simpl; [right; auto|].
  case_bool_decide; simpl; [|right; split; [done|lia]].
  case_bool_decide; simpl; [right; auto|left; auto].
Qed.

(** The loop ends within [enough_fuel] passes. *)
Lemma retry_loop_total fuel threaded env autostop n retry tobesent rem st :
  0 ≤ autostop →
  (retry < 0 ∨
   (length tobesent * S (Z.to_nat autostop) + Z.to_nat retry < fuel)%nat) →
  is_Some (retry_loop fuel threaded env autostop n retry tobesent rem st).
Proof.
  intros Hauto. revert n retry tobesent rem st.
  induction fuel as [|fuel IH]; intros n retry tobesent rem st Hfuel; simpl.
  - destruct (Z.ltb_spec retry 0); [done|]. lia.
  - destruct (Z.ltb_spec retry 0) as [|Hretry]; [done|].
    destruct Hfuel as [|Hfuel]; [lia|].
    set (st' := run_pass threaded (env n) tobesent st).
    pose proof (remain_length hashret answers multi threaded (env n) tobesent st)
      as Hlen. fold st' in Hlen.
    case_bool_decide as Hzero; [done|].
    set (retry' := SndRcv.reset_retry autostop retry tobesent (remain st')).
    destruct (IH (S n) (retry' - 1) (remain st') (remain st') st') as [res Hres].
    { destruct (Z.ltb_spec (retry' - 1) 0) as [|Hge]; [by left|right].
      destruct (reset_retry_cases autostop retry tobesent (remain st'))
        as [(Hr & Hnz & Hpos & Hne)|(Hr & _)]; fold retry' in Hr.
      - assert (S (length (remain st')) ≤ length tobesent)%nat as Hlt by lia.
        apply (Nat.mul_le_mono_r _ _ (S (Z.to_nat autostop))) in Hlt.
        rewrite Hr in *. lia.
      - apply (Nat.mul_le_mono_r _ _ (S (Z.to_nat autostop))) in Hlen.
        rewrite Hr in *. lia. }
    rewrite Hres. by destruct res as [[? ?] ?].
Qed.

End RetryFacts.

Section RetryRuns.
Context {Packet : Type} `{EqDecision Packet}.
Variable hashret : Packet → bytes.
Variable answers : Packet → Packet → bool.

Local Abbreviation State := (@SndRcv.State Packet).
Local Abbreviation Event := (@SndRcv.Event Packet).
Local Abbreviation retry_loop := (SndRcv.retry_loop hashret answers).
Local Abbreviation run_pass := (SndRcv.run_pass hashret answers).
Local Abbreviation no_progress := SndRcv.no_progress.

Implicit Types (st : State) (env : nat → list Event) (tobesent rem : list Packet).

(** Unfolding one pass of the loop. *)
Lemma retry_loop_pass multi fuel threaded env autostop n retry tobesent rem st :
  0 ≤ retry →
  retry_loop multi (S fuel) threaded env autostop n retry tobesent rem st
  = let st' := run_pass multi threaded (env n) tobesent st in
    let rem' := SndRcv.remain multi st' in
    let this := (length tobesent, length rem') in
    if bool_decide (length rem' = 0%nat) then Some (st', rem', [this])
    else
      '(st'', rem'', tr) ← retry_loop multi fuel threaded env autostop (S n)
                             (SndRcv.reset_retry autostop retry tobesent rem' - 1)
                             rem' rem' st';
      Some (st'', rem'', this :: tr).
Proof. intros Hretry. simpl. by destruct (Z.ltb_spec retry 0); [lia|]. Qed.

Lemma retry_loop_exit multi fuel threaded env autostop n retry tobesent rem st :
  retry < 0 →
  retry_loop multi fuel threaded env autostop n retry tobesent rem st
  = Some (st, rem, []).
Proof.
  intros Hretry. destruct fuel; simpl; by destruct (Z.ltb_spec retry 0); [|lia].
Qed.

(** One pass of a loop that returns: either it was the last one, or the
    loop went on from the stimuli it left. *)
Lemma retry_loop_inv multi fuel threaded env autostop n retry tobesent rem st res :
  0 ≤ retry →
  retry_loop multi fuel threaded env autostop n retry tobesent rem st = Some res →
  ∃ fuel',
    fuel = S fuel' ∧
    let st' := run_pass multi threaded (env n) tobesent st in
    let rem' := SndRcv.remain multi st' in
    let this := (length tobesent, length rem') in
    (rem' = [] ∧ res = (st', rem', [this]))
    ∨ (rem' ≠ [] ∧ ∃ st'' rem'' tr,
         retry_loop multi fuel' threaded env autostop (S n)
           (SndRcv.reset_retry autostop retry tobesent rem' - 1) rem' rem' st'
         = Some (st'', rem'', tr)
         ∧ res = (st'', rem'', this :: tr)).
Proof.
  intros Hretry Hres. destruct fuel as [|fuel'].
  { simpl in Hres. by destruct (Z.ltb_spec retry 0); [lia|]. }
  exists fuel'. split; [done|].
  rewrite retry_loop_pass in Hres by done. simpl in *.
  case_bool_decide as Hzero.
  - left. split; [by apply length_zero_iff_nil|congruence].
  - right. split; [by intros Hnil; rewrite Hnil in Hzero|].
    destruct (retry_loop _ _ _ _ _ _ _ _ _ _) as [[[st2 rem2] tr2]|];
      simplify_eq/=.
    by exists st2, rem2, tr2.
Qed.

(** Single-answer mode: the pairs of a stimulus never outnumber its
    occurrences among the stimuli given to the loop. *)
Lemma retry_loop_answer_count s fuel threaded env autostop n retry tobesent rem
    st st' rem' tr :
  retry_loop false fuel threaded env autostop n retry tobesent rem st
  = Some (st', rem', tr) →
  (SndRcv.answer_count s (SndRcv.ans st')
   ≤ SndRcv.answer_count s (SndRcv.ans st) + SndRcv.occurrences s tobesent)%nat.
Proof.
  revert n retry tobesent rem st st' rem' tr.
  induction fuel as [|fuel IH]; intros n retry tobesent rem st st' rem' tr Hres.
  { simpl in Hres. destruct (Z.ltb_spec retry 0); simplify_eq. lia. }
  destruct (Z.ltb_spec retry 0) as [Hneg|Hpos].
  { rewrite retry_loop_exit in Hres by done. simplify_eq. lia. }
  pose proof (pass_answer_count hashret answers false s threaded (env n)
                tobesent st eq_refl) as Hpass.
  apply retry_loop_inv in Hres as (fuel' & [= <-] & Hcases); [|done].
  simpl in Hcases.
  destruct Hcases as [[_ ?]|(_ & st2 & rem2 & tr2 & Hrec & ?)]; simplify_eq.
  - lia.
  - apply IH in Hrec. unfold SndRcv.remain in Hpass. lia.
Qed.

(** Multi-answer mode: the invariant of the flags holds when the loop
    returns. *)
Lemma retry_loop_multi_invariant fuel threaded env autostop n retry tobesent
    rem st st' rem' tr :
  SndRcv.multi_invariant st →
  retry_loop true fuel threaded env autostop n retry tobesent rem st
  = Some (st', rem', tr) →
  SndRcv.multi_invariant st'.
Proof.
  revert n retry tobesent rem st st' rem' tr.
  induction fuel as [|fuel IH];
    intros n retry tobesent rem st st' rem' tr Hinv Hres.
  { simpl in Hres. by destruct (Z.ltb_spec retry 0); simplify_eq. }
  destruct (Z.ltb_spec retry 0) as [Hneg|Hpos].
  { rewrite retry_loop_exit in Hres by done. by simplify_eq. }
  pose proof (multi_invariant_pass hashret answers threaded (env n) tobesent
                st Hinv) as Hpass.
  apply retry_loop_inv in Hres as (fuel' & [= <-] & Hcases); [|done].
  simpl in Hcases.
  destruct Hcases as [[_ ?]|(_ & st2 & rem2 & tr2 & Hrec & ?)]; simplify_eq.
  - done.
  - by eapply IH.
Qed.

(** A run in which no pass answers anything uses up the retries one by
    one: it makes [retry + 1] passes. *)
Lemma retry_loop_no_answer multi fuel threaded env autostop n retry tobesent
    rem st st' rem' tr :
  0 ≤ retry → tobesent ≠ [] →
  retry_loop multi fuel threaded env autostop n retry tobesent rem st
  = Some (st', rem', tr) →
  Forall no_progress tr →
  length tr = S (Z.to_nat retry).
Proof.
  revert n retry tobesent rem st st' rem' tr.
  induction fuel as [|fuel IH];
    intros n retry tobesent rem st st' rem' tr Hretry Hne Hres Hall.
  { simpl in Hres. by destruct (Z.ltb_spec retry 0); [lia|]. }
  apply retry_loop_inv in Hres as (fuel' & [= <-] & Hcases); [|done].
  simpl in Hcases.
  assert (length tobesent ≠ 0%nat) as Hlen
    by (by intros ?%length_zero_iff_nil).
  destruct Hcases as [[Hnil ?]|(Hrem & st2 & rem2 & tr2 & Hrec & ?)];
    simplify_eq.
  - apply Forall_cons in Hall as [Hthis _]. unfold SndRcv.no_progress in Hthis.
    simpl in Hthis. rewrite Hnil in Hthis. done.
  - apply Forall_cons in Hall as [Hthis Hall].
    unfold SndRcv.no_progress in Hthis. simpl in Hthis.
    destruct (reset_retry_cases autostop retry tobesent
                (SndRcv.remain multi (run_pass multi threaded (env n) tobesent st)))
      as [(_ & _ & _ & Hdiff)|(Hr & _)]; [congruence|].
    rewrite Hr in Hrec. simpl.
    destruct (Z.ltb_spec (retry - 1) 0) as [Hlast|Hmore].
    + rewrite retry_loop_exit in Hrec by done. simplify_eq. simpl.
      f_equal. lia.
    + apply IH in Hrec; [|done..]. rewrite Hrec. f_equal. lia.
Qed.

(** With an autostop budget, a run that ends with stimuli outstanding has
    just made [autostop] passes in a row that answered nothing (counting
    from the start: [retry + 1] such passes). *)
Lemma retry_loop_ends multi fuel threaded env autostop n retry tobesent rem
    st st' rem' tr :
  0 < autostop → 0 ≤ retry →
  retry_loop multi fuel threaded env autostop n retry tobesent rem st
  = Some (st', rem', tr) →
  rem' ≠ [] →
  (Forall no_progress tr ∧ length tr = S (Z.to_nat retry))
  ∨ ∃ pre suf, tr = pre ++ suf ∧ length suf = Z.to_nat autostop
               ∧ Forall no_progress suf.
Proof.
  intros Hauto. revert n retry tobesent rem st st' rem' tr.
  induction fuel as [|fuel IH];
    intros n retry tobesent rem st st' rem' tr Hretry Hres Hleft.
  { simpl in Hres. by destruct (Z.ltb_spec retry 0); [lia|]. }
  apply retry_loop_inv in Hres as (fuel' & [= <-] & Hcases); [|done].
  simpl in Hcases.
  destruct Hcases as [[Hnil ?]|(Hrem & st2 & rem2 & tr2 & Hrec & ?)];
    simplify_eq; try done.
  set (rem1 := SndRcv.remain multi (run_pass multi threaded (env n) tobesent st))
    in *.
  destruct (reset_retry_cases autostop retry tobesent rem1)
    as [(Hr & _ & _ & _)|(Hr & Hwhy)]; rewrite Hr in Hrec.
  - (* the pass made partial progress: the counter starts again *)
    right. apply IH in Hrec as [[Hall Hlen]|(pre & suf & -> & Hlen & Hall)];
      [| |lia|done].
    + exists [(length tobesent, length rem1)], tr2.
      repeat split; [|done]. rewrite Hlen. lia.
    + by exists ((length tobesent, length rem1) :: pre), suf.
  - (* nothing was answered *)
    assert (no_progress (length tobesent, length rem1)) as Hthis.
    { unfold SndRcv.no_progress. simpl.
      destruct Hwhy as [?|[Hz|?]]; [lia| |done].
      by apply length_zero_iff_nil in Hz. }
    destruct (Z.ltb_spec (retry - 1) 0) as [Hlast|Hmore].
    + rewrite retry_loop_exit in Hrec by done. simplify_eq. left.
      split; [by repeat constructor|]. simpl. f_equal. lia.
    + apply IH in Hrec as [[Hall Hlen]|(pre & suf & -> & Hlen & Hall)];
        [| |done..].
      * left. split; [by constructor|]. simpl. rewrite Hlen. lia.
      * right. by exists ((length tobesent, length rem1) :: pre), suf.
Qed.

End RetryRuns.

(** ** The claims about the match coordinator *)

(** C1: in a pass of the coordinator, the sender appends every stimulus
    [p] to the bucket of [p.hashret()] in [hsent] before it calls
    [send(p)]: from the head of its loop the first step appends [p] and
    sends nothing, and only the step after it sends [p].  So, however the
    sender and the dispatcher are interleaved, the stimulus about to be
    sent and every stimulus sent in the pass is recorded: it is in its
    bucket, or the dispatcher has already paired it with a reply. *)
Theorem stimulus_recorded_before_send {Packet : Type} `{EqDecision Packet}
    (hashret : Packet → bytes) (answers : Packet → Packet → bool)
    (multi : bool) (sched : list SndRcv.Event) (tobesent : list Packet)
    (st0 : SndRcv.State) :
  let st := SndRcv.run hashret answers multi sched
              (SndRcv.pass_start tobesent st0) in
  (∀ s1 p rest,
     SndRcv.snd_pc s1 = SndRcv.SndLoop → SndRcv.snd_iter s1 = p :: rest →
     let s2 := SndRcv.snd_step hashret multi true s1 in
     p ∈ SndRcv.bucket (hashret p) s2 ∧ SndRcv.wire s2 = SndRcv.wire s1 ∧
     SndRcv.snd_pc s2 = SndRcv.SndInserted p ∧
     SndRcv.wire (SndRcv.snd_step hashret multi true s2)
     = SndRcv.wire s1 ++ [p]) ∧
  (∀ p, SndRcv.snd_pc st = SndRcv.SndInserted p → SndRcv.recorded hashret p st) ∧
  ∃ sent, SndRcv.wire st = SndRcv.wire st0 ++ sent ∧
          ∀ p, p ∈ sent → SndRcv.recorded hashret p st.
Proof.
  intros st. split.
  - intros s1 p rest Hpc Hit. cbv zeta. unfold SndRcv.snd_step.
    rewrite Hpc, Hit. simpl. repeat split.
    unfold SndRcv.bucket. simpl. rewrite bucket_after_append.
    rewrite decide_True by done. apply elem_of_app. right. left.
  - apply (run_invariant hashret answers multi
             (SndRcv.send_invariant hashret (SndRcv.wire st0))).
    + intros st1 st2. apply send_invariant_step.
    + apply send_invariant_start.
Qed.

Lemma stimulus_recorded_before_send_witness :
  SndRcv.recorded Stub.hashret 1%nat
    (SndRcv.run Stub.hashret Stub.answers false
       [SndRcv.SndStep; SndRcv.SndStep]
       (SndRcv.pass_start [1%nat] SndRcv.init_state)).
Proof.
  destruct (stimulus_recorded_before_send Stub.hashret Stub.answers false
              [SndRcv.SndStep; SndRcv.SndStep] [1%nat] SndRcv.init_state)
    as (_ & _ & sent & Hw & Hs).
  apply Hs. vm_compute in Hw. subst sent. left.
Defined.

Section HandlerFacts.
Context {Packet : Type} `{EqDecision Packet}.
Variable hashret : Packet → bytes.
Variable answers : Packet → Packet → bool.

Local Abbreviation Event := (@SndRcv.Event Packet).
Local Abbreviation SndRcvHandler := (SndRcv.SndRcvHandler hashret answers).

Lemma init_retry_nonneg retry :
  0 ≤ (SndRcv.init_retry retry).1 ∧ 0 ≤ (SndRcv.init_retry retry).2.
Proof. unfold SndRcv.init_retry. destruct (Z.ltb_spec retry 0); simpl; lia. Qed.

(** The constructor returns, and its results are those of the loop run
    from the fresh state. *)
Lemma SndRcvHandler_returns multi threaded (env : nat → list Event) retry pkt :
  ∃ res st rem,
    SndRcvHandler multi threaded env retry pkt = Some res ∧
    SndRcv.retry_loop hashret answers multi
      (SndRcv.enough_fuel (SndRcv.init_retry retry).1 (SndRcv.init_retry retry).2 pkt)
      threaded env (SndRcv.init_retry retry).2 0 (SndRcv.init_retry retry).1
      pkt [] SndRcv.init_state
    = Some (st, rem, SndRcv.passes res) ∧
    SndRcv.ans_result res = SndRcv.ans st ∧
    SndRcv.unans_result res = rem ∧
    SndRcv.noans (SndRcv.final res) = SndRcv.noans st.
Proof.
  unfold SndRcv.SndRcvHandler.
  destruct (init_retry_nonneg retry) as [Hr Ha].
  destruct (SndRcv.init_retry retry) as [retry1 autostop].
  cbn [fst snd] in *.
  destruct (retry_loop_total hashret answers multi
              (SndRcv.enough_fuel retry1 autostop pkt) threaded env autostop
              0 retry1 pkt [] SndRcv.init_state Ha) as [[[st rem] tr] Hloop].
  { right. unfold SndRcv.enough_fuel. lia. }
  rewrite Hloop. simpl. by eexists _, st, rem.
Qed.

End HandlerFacts.



(** C3: in multi-answer mode, when the dispatcher finds the first
    stimulus [s] of the bucket that [r] answers, it records the pair
    [(s, r)], leaves the table as it is, flags [s] with [_answered], and
    adds one to [noans] only if [s] was not flagged yet; so at the end of
    a whole run [noans] is the number of distinct stimuli in the answered
    list, however many pairs each of them has. *)
Theorem multi_answer_counts_once {Packet : Type} `{EqDecision Packet}
    (hashret : Packet → bytes) (answers : Packet → Packet → bool)
    (threaded : bool) (env : nat → list SndRcv.Event) (retry : Z)
    (pkt : list Packet) :
  (∀ r st i s,
     SndRcv.first_match hashret answers r st = Some (i, s) →
     let st' := SndRcv._process_packet hashret answers true (Some r) st in
     SndRcv.ans st' = SndRcv.ans st ++ [(s, r)] ∧
     SndRcv.hsent st' = SndRcv.hsent st ∧
     s ∈ SndRcv.has_answered st' ∧
     SndRcv.noans st'
     = if bool_decide (s ∈ SndRcv.has_answered st) then SndRcv.noans st
       else SndRcv.noans st + 1) ∧
  ∃ res,
    SndRcv.SndRcvHandler hashret answers true threaded env retry pkt = Some res ∧
    SndRcv.noans (SndRcv.final res)
    = Z.of_nat (SndRcv.distinct_stimuli (SndRcv.ans_result res)).
Proof.
  split.
  - intros r st i s Hm. simpl. rewrite Hm.
    unfold SndRcv._stop_sniffer_if_done, SndRcv.record_match. simpl.
    rewrite andb_false_r. simpl. repeat split.
    case_bool_decide; [done|]. apply elem_of_app. right. left.
  - destruct (SndRcvHandler_returns hashret answers true threaded env retry pkt)
      as (res & st & rem & Hres & Hloop & Hans & _ & Hnoans).
    exists res. split; [done|]. rewrite Hans, Hnoans.
    apply multi_invariant_noans.
    eapply (retry_loop_multi_invariant hashret answers); [|done].
    repeat split; simpl; try done; [constructor|..];
      by intros ?%elem_of_nil.
Qed.

Lemma multi_answer_counts_once_witness :
  ∃ res,
    SndRcv.SndRcvHandler Stub.hashret Stub.answers true true
      (λ _, Stub.send_all 1 ++ Stub.receive [11; 21]%nat) 0 [1%nat]
    = Some res ∧
    SndRcv.ans_result res = [(1, 11); (1, 21)]%nat ∧
    SndRcv.noans (SndRcv.final res) = 1.
Proof.
  destruct (multi_answer_counts_once Stub.hashret Stub.answers true
              (λ _, Stub.send_all 1 ++ Stub.receive [11; 21]%nat) 0 [1%nat])
    as (_ & res & Hres & Hnoans).
  exists res. split; [done|]. rewrite Hnoans.
  vm_compute in Hres. by injection Hres as <-.
Defined.




(** ** The send engine *)

Section GenSendFacts.
Context {Packet : Type}.
Implicit Types (x : list Packet) (tx : @GenSend.Tx Packet).

(** A traversal that no interrupt cuts short sends the whole source, in
    order. *)
Lemma traverse_all verbose x tx :
  GenSend.intr tx = None → GenSend.interrupted tx = false →
  let tx' := GenSend.traverse verbose x tx in
  GenSend.sock tx' = GenSend.sock tx ++ x ∧
  GenSend.n tx' = GenSend.n tx + Z.of_nat (length x) ∧
  GenSend.sent_packets tx' = (λ l, l ++ x) <$> GenSend.sent_packets tx ∧
  GenSend.intr tx' = None ∧ GenSend.interrupted tx' = false.
Proof.
  revert tx. induction x as [|p x IH]; intros tx Hintr Hint; simpl.
  - rewrite app_nil_r. repeat split; try done; [lia|].
    destruct (GenSend.sent_packets tx); simpl; by rewrite ?app_nil_r.
  - rewrite Hintr.
    destruct (IH (GenSend.send_one verbose p tx)) as (Hs & Hn & Hp & Hi & Hb).
    { simpl. by rewrite Hintr. }
    { done. }
    rewrite Hs, Hn, Hp, Hi, Hb. simpl. repeat split.
    + by rewrite <- app_assoc.
    + lia.
    + destruct (GenSend.sent_packets tx); simpl; [|done].
      by rewrite <- app_assoc.
Qed.

(** A negative [loop] counts the traversals up to zero. *)
Lemma while_loop_times verbose x (m : nat) fuel tx :
  (m < fuel)%nat →
  GenSend.intr tx = None → GenSend.interrupted tx = false →
  ∃ tx',
    GenSend.while_loop fuel verbose x (- Z.of_nat m) tx = Some tx' ∧
    GenSend.sock tx' = GenSend.sock tx ++ concat (replicate m x) ∧
    GenSend.n tx' = GenSend.n tx + Z.of_nat m * Z.of_nat (length x) ∧
    GenSend.sent_packets tx'
    = (λ l, l ++ concat (replicate m x)) <$> GenSend.sent_packets tx.
Proof.
  revert fuel tx. induction m as [|m IH]; intros fuel tx Hfuel Hintr Hint.
  - exists tx. destruct fuel; simpl; rewrite ?app_nil_r;
      (repeat split; [lia|]); by destruct (GenSend.sent_packets tx);
      simpl; rewrite ?app_nil_r.
  - destruct fuel as [|fuel]; [lia|].
    cbn [GenSend.while_loop].
    destruct (Z.eqb_spec (- Z.of_nat (S m)) 0) as [|_]; [lia|].
    destruct (traverse_all verbose x tx Hintr Hint) as (Hs & Hn & Hp & Hi & Hb).
    rewrite Hb.
    destruct (Z.ltb_spec (- Z.of_nat (S m)) 0) as [_|]; [|lia].
    replace (- Z.of_nat (S m) + 1) with (- Z.of_nat m) by lia.
    destruct (IH fuel (GenSend.traverse verbose x tx)) as (tx' & Hl & Hs' & Hn' & Hp');
      [lia|done..|].
    exists tx'. split; [done|]. rewrite Hs', Hn', Hp', Hs, Hn, Hp.
    simpl. repeat split.
    + by rewrite <- app_assoc.
    + lia.
    + destruct (GenSend.sent_packets tx); simpl; [|done].
      by rewrite <- app_assoc.
Qed.

End GenSendFacts.

(** C8: the send engine, when no interrupt arrives, traverses a finite
    source a fixed number of times, each traversal sending every packet
    of the source once on the socket, in source order: [count = N] (a
    number of times, so [N >= 0]) gives [N] traversals whatever [loop]
    is, [loop = 0] without [count] gives one, and [loop = -m] without
    [count] gives [m]. *)
Theorem gen_send_traversals {Packet : Type} (x : list Packet) (verbose : Z)
    (return_packets : bool) :
  (∀ N loop fuel, 0 ≤ N → (Z.to_nat N < fuel)%nat →
     ∃ tx,
       GenSend.__gen_send fuel x loop (Some N) verbose return_packets None
       = Some tx ∧
       GenSend.effective_loop loop (Some N) = - N ∧
       GenSend.sock tx = concat (replicate (Z.to_nat N) x) ∧
       GenSend.n tx = N * Z.of_nat (length x)) ∧
  (∀ fuel, (1 < fuel)%nat →
     ∃ tx,
       GenSend.__gen_send fuel x 0 None verbose return_packets None = Some tx ∧
       GenSend.sock tx = x) ∧
  (∀ m fuel, 0 < m → (Z.to_nat m < fuel)%nat →
     ∃ tx,
       GenSend.__gen_send fuel x (- m) None verbose return_packets None
       = Some tx ∧
       GenSend.sock tx = concat (replicate (Z.to_nat m) x)).
Proof.
  unfold GenSend.__gen_send. repeat split.
  - intros N loop fuel HN Hfuel. simpl.
    destruct (while_loop_times verbose x (Z.to_nat N) fuel
                (GenSend.mkTx [] 0 (if return_packets then Some [] else None)
                   O None false) Hfuel eq_refl eq_refl)
      as (tx & Hl & Hs & Hn & _).
    rewrite Z2Nat.id in Hl by done. exists tx. repeat split; try done.
    rewrite Hn. simpl. lia.
  - intros fuel Hfuel. simpl.
    destruct (while_loop_times verbose x 1 fuel
                (GenSend.mkTx [] 0 (if return_packets then Some [] else None)
                   O None false) Hfuel eq_refl eq_refl)
      as (tx & Hl & Hs & _).
    exists tx. split; [done|]. rewrite Hs. simpl. by rewrite app_nil_r.
  - intros m fuel Hm Hfuel.
    assert (GenSend.effective_loop (- m) None = - Z.of_nat (Z.to_nat m)) as ->.
    { unfold GenSend.effective_loop, truthy.
      destruct (Z.eqb_spec (- m) 0); simpl; lia. }
    destruct (while_loop_times verbose x (Z.to_nat m) fuel
                (GenSend.mkTx [] 0 (if return_packets then Some [] else None)
                   O None false) Hfuel eq_refl eq_refl)
      as (tx & Hl & Hs & _).
    by exists tx.
Qed.

Lemma gen_send_traversals_witness :
  ∃ tx,
    GenSend.__gen_send 3 [1; 2]%nat 7 (Some 2) 0 true None = Some tx ∧
    GenSend.sock tx = [1; 2; 1; 2]%nat.
Proof.
  destruct (gen_send_traversals [1; 2]%nat 0 true) as (Hcount & _ & _).
  destruct (Hcount 2 7 3%nat) as (tx & Htx & _ & Hsock & _); [lia|simpl; lia|].
  by exists tx.
Defined.

(** ** The flood controller *)

Section FloodFacts.
Context {Packet : Type}.
Implicit Types (tobesent : list Packet).

(** Without a stop event a cycle yields the whole source. *)
Lemma cycle_no_stop tobesent j :
  Flood.cycle tobesent None j
  = (tobesent, j + Z.of_nat (length tobesent), None, false).
Proof.
  revert j. induction tobesent as [|p rest IH]; intros j; simpl.
  - do 3 f_equal. lia.
  - rewrite IH. do 3 f_equal. lia.
Qed.

(** From round [i] the generator makes [d] more cycles when
    [maxretries = i + 1 + d]: the round that would be cycle number
    [maxretries] is not made. *)
Lemma iterate_cycles tobesent (k : Z) (d : nat) fuel i iterlen :
  k ≠ 0 → k = i + 1 + Z.of_nat d → (d < fuel)%nat →
  Flood.iterate fuel tobesent (Some k) None i iterlen
  = Some (concat (replicate d tobesent),
          match d with
          | O => iterlen
          | S _ => if iterlen =? 0 then Z.of_nat (length tobesent) else iterlen
          end).
Proof.
  intros Hk. revert fuel i iterlen.
  induction d as [|d IH]; intros fuel i iterlen Hd Hfuel;
    (destruct fuel as [|fuel]; [lia|]); simpl; unfold truthy.
  - destruct (Z.eqb_spec k 0); [done|]. simpl.
    by destruct (Z.leb_spec k (i + 1)); [|lia].
  - destruct (Z.eqb_spec k 0); [done|]. simpl.
    destruct (Z.leb_spec k (i + 1)); [lia|].
    rewrite cycle_no_stop. simpl.
    rewrite (IH fuel (i + 1)) by lia. simpl. do 2 f_equal.
    rewrite Z.add_0_l.
    destruct d, (Z.eqb_spec iterlen 0) as [Hz|Hne]; try done.
    + by destruct (Z.eqb_spec (Z.of_nat (length tobesent)) 0).
    + by destruct (Z.eqb_spec iterlen 0).
Qed.

(** With [maxretries = k >= 1] and no stop event the generator yields
    [k - 1] cycles, and [iterlen] is the length of a cycle once one has
    been completed. *)
Lemma flood_cycles tobesent (k : Z) fuel :
  1 ≤ k → (Z.to_nat k ≤ fuel)%nat →
  Flood._FloodGenerator fuel tobesent (Some k) None
  = Some (concat (replicate (Z.to_nat (k - 1)) tobesent),
          if k =? 1 then 0 else Z.of_nat (length tobesent)).
Proof.
  intros Hk Hfuel. unfold Flood._FloodGenerator.
  rewrite (iterate_cycles tobesent k (Z.to_nat (k - 1))) by lia.
  do 2 f_equal. destruct (Z.eqb_spec k 1) as [->|Hne]; [done|].
  by destruct (Z.to_nat (k - 1)) eqn:E; [lia|].
Qed.

End FloodFacts.

(** C6 fails on the code: with [maxretries = 1] the generator over the
    two packets 1, 2 returns at once, before any cycle, and [iterlen]
    stays 0; with [maxretries = 3] it yields two cycles, not three. *)
Theorem flood_maxretries_off_by_one :
  Flood._FloodGenerator 4 [1; 2]%nat (Some 1) None = Some ([], 0) ∧
  Flood._FloodGenerator 4 [1; 2]%nat (Some 3) None
  = Some ([1; 2; 1; 2]%nat, 2).
Proof. split; reflexivity. Qed.

(** ** The sniffer engine *)

Section SniffFacts.
Context {Packet : Type}.
Variable cfg : @Sniff.Config Packet.

Implicit Types (st : @Sniff.Loop Packet) (ps : list Packet).

(** Inside the packets of one socket the quota is exact: from below the
    quota, the loop stops on the packet that reaches it, and nothing
    after that packet is counted. *)
Lemma for_packets_quota lbl ps st :
  0 < Sniff.count cfg → Sniff.self_count st < Sniff.count cfg →
  let '(st', broke) := Sniff.for_packets cfg lbl ps st in
  Sniff.self_count st' ≤ Sniff.count cfg ∧
  (Sniff.self_count st' = Sniff.count cfg → broke = true).
Proof.
  intros Hcount. revert st.
  induction ps as [|p ps IH]; intros st Hlt; simpl; [lia|].
  destruct (Sniff.rejected cfg p); [by apply IH|].
  destruct (Sniff.call_opt (Sniff.stop_filter cfg) (p, lbl)); simpl.
  - split; [lia|done].
  - destruct (Z.ltb_spec 0 (Sniff.count cfg)); [|lia]. simpl.
    destruct (Z.leb_spec (Sniff.count cfg) (Sniff.self_count st + 1)); simpl.
    + split; [lia|done].
    + apply IH. simpl. lia.
Qed.

End SniffFacts.

(** C4 fails on the code: with [count = 1] and two sockets that one
    [select] call returns ready, each yielding one packet, the quota
    fires on the first packet, yet the packet of the second socket is
    counted, stored and passed to [prn]: the [break] leaves the loop over
    the packets of the first socket only.  The run returns with two
    accepted packets. *)
Theorem sniff_count_overrun :
  let cfg := Sniff.mkConfig 1 true (Some (λ _ : Sniff.Tagged, None)) None None
               false None 0 in
  ∃ st,
    Sniff._run cfg [(0, "socket0"); (1, "socket1")]%nat
      [Sniff.mkRound false false
         [Sniff.mkReady 0%nat [7%nat] Sniff.EndOk;
          Sniff.mkReady 1%nat [8%nat] Sniff.EndOk]]
    = Sniff.Finished st ∧
    Sniff.self_count st = 2 ∧
    Sniff.lst st = [(7%nat, Some "socket0"); (8%nat, Some "socket1")] ∧
    Sniff.prn_calls st = Sniff.lst st.
Proof. simpl. eexists. split; [vm_compute; reflexivity|]. by simpl. Qed.

(** C10: [stop] on a sniffer that is not running raises
    [Scapy_Exception("Not running ! (check .running attr)")] and leaves
    the object as it was. *)
Theorem stop_not_running {Packet : Type}
    (thread_end : @Sniff.Sniffer Packet → Sniff.Sniffer) (do_join : bool)
    (sn : Sniff.Sniffer) :
  Sniff.running sn = false →
  Sniff.stop thread_end do_join sn
  = (sn, Raise (Scapy_Exception "Not running ! (check .running attr)")).
Proof. intros Hrun. unfold Sniff.stop. by rewrite Hrun. Qed.

Lemma stop_not_running_witness :
  Sniff.stop (λ sn : @Sniff.Sniffer nat, sn) true Sniff.new_sniffer
  = (Sniff.new_sniffer,
     Raise (Scapy_Exception "Not running ! (check .running attr)")).
Proof. apply stop_not_running. reflexivity. Defined.

(** ** The bridge forwarder *)

Section BridgeFacts.
Context {Packet : Type}.
Variable peers : list (Bridge.Label * Bridge.Socket).
Variable xfrms : list (Bridge.Label * (Packet → @Bridge.XfrmOut Packet)).
Variable send_raises : Bridge.Socket → @Bridge.SendArg Packet → bool.

(** What [prn_send] does for a [bool] or a packet from the transform. *)
Lemma prn_send_transformed pkt lbl xfrm sendsock :
  PyDict.get (default ""%string (Some lbl)) peers = Some sendsock →
  PyDict.get lbl xfrms = Some xfrm →
  Bridge.prn_send peers xfrms send_raises pkt (Some lbl)
  = match xfrm pkt with
    | Bridge.XBool true => Bridge.forward send_raises sendsock (Bridge.ArgPacket pkt)
    | Bridge.XBool false => []
    | Bridge.XNone => Bridge.forward send_raises sendsock Bridge.ArgNone
    | Bridge.XPacket q => Bridge.forward send_raises sendsock (Bridge.ArgPacket q)
    | Bridge.XRaise =>
        [Bridge.Warning "Exception in transformation function -- dropping"]
    end.
Proof.
  intros Hpeer Hx. unfold Bridge.prn_send. rewrite Hpeer.
  unfold mbind, option_bind, Bridge.Label. rewrite Hx.
  by destruct (xfrm pkt) as [[|]| | |].
Qed.

End BridgeFacts.

(** C7 fails on the code for [None]: for a packet sniffed on [if1] whose
    transform returns [None], [prn_send] calls [send(None)] on the peer
    socket instead of dropping the packet. *)
Theorem bridge_none_is_sent :
  Bridge.prn_send (Bridge.mk_peers "if1" "if2" 1%nat 2%nat)
    (Bridge.mk_xfrms "if1" "if2" (Some (λ _ : nat, Bridge.XNone)) None)
    (λ _ _, false) 7%nat (Some "if1"%string)
  = [Bridge.CallSend 2%nat Bridge.ArgNone].
Proof. reflexivity. Qed.

(** ** The replay-tool output parser *)

Section ReplayFacts.
Variable plain_str : bytes → Res string.
Variable lower strip : string → string.
Variable split_lines : string → list string.
Variable re_search : string → string → Res (option (list string)).
Variable convert : Replay.Typ → string → Res Replay.Value.

Local Abbreviation parse_body :=
  (Replay.parse_body plain_str lower strip split_lines re_search convert).

(** A body that returns has set the two keys last. *)
Lemma parse_body_keys stdout_b stderr_b argv results :
  parse_body stdout_b stderr_b argv = Return results →
  PyDict.mem "command"%string results = true ∧
  PyDict.mem "warnings"%string results = true.
Proof.
  unfold Replay.parse_body. unfold mbind, Res_bind, mret, Res_ret.
  destruct (plain_str stdout_b); [done|].
  destruct (plain_str stderr_b); [done|].
  destruct (Replay.for_lines _ _ _ _ _); [done|].
  intros [= <-]. split.
  - apply mem_set_other, mem_set.
  - apply mem_set.
Qed.

End ReplayFacts.

(** C9: when the body of the parser raises an exception [e] (an
    [Exception]), the parser logs the error and returns the empty map if
    [conf.interactive] is set, and raises [e] again if it is not; when
    the body returns, the parser returns its map, which holds the keys
    ['command'] and ['warnings']. *)
Theorem parse_failure_policy (plain_str : bytes → Res string)
    (lower strip : string → string) (split_lines : string → list string)
    (re_search : string → string → Res (option (list string)))
    (convert : Replay.Typ → string → Res Replay.Value)
    (interactive : bool) (stdout_b stderr_b : bytes) (argv : list string) :
  (∀ e,
     Replay.parse_body plain_str lower strip split_lines re_search convert
       stdout_b stderr_b argv = Raise e →
     is_Exception e = true →
     Replay._parse_tcpreplay_result plain_str lower strip split_lines
       re_search convert interactive stdout_b stderr_b argv
     = if interactive
       then (["Error parsing output: " ++ exn_msg e]%string, Return [])
       else ([], Raise e)) ∧
  (∀ results,
     Replay.parse_body plain_str lower strip split_lines re_search convert
       stdout_b stderr_b argv = Return results →
     Replay._parse_tcpreplay_result plain_str lower strip split_lines
       re_search convert interactive stdout_b stderr_b argv
     = ([], Return results) ∧
     PyDict.mem "command"%string results = true ∧
     PyDict.mem "warnings"%string results = true).
Proof.
  split.
  - intros e Hbody He. unfold Replay._parse_tcpreplay_result.
    rewrite Hbody, He. by destruct interactive.
  - intros results Hbody. split.
    + unfold Replay._parse_tcpreplay_result. by rewrite Hbody.
    + by eapply parse_body_keys.
Qed.

Lemma parse_failure_policy_witness :
  Replay._parse_tcpreplay_result
    (λ _, Raise (mkExn "UnicodeDecodeError" "bad byte" true))
    id id (λ s, [s]) (λ _ _, Return None)
    (λ ty s, Return (Replay.VNum ty s)) true [] [] ["tcpreplay"]%string
  = (["Error parsing output: bad byte"]%string, Return []) ∧
  Replay._parse_tcpreplay_result
    (λ _, Return "actual: 10 packets (100 bytes) sent in 1.5 seconds"%string)
    id id (λ s, [s]) (λ _ _, Return (Some ["10"; "100"; "1.5"]%string))
    (λ ty s, Return (Replay.VNum ty s)) false [] [] ["tcpreplay"; "-i"]%string
  = ([], Return
           [("packets", Replay.VNum Replay.TInt "10");
            ("bytes", Replay.VNum Replay.TInt "100");
            ("time", Replay.VNum Replay.TFloat "1.5");
            ("command", Replay.VStr "tcpreplay -i");
            ("warnings", Replay.VList [])]%string).
Proof.
  split.
  - apply (proj1 (parse_failure_policy _ _ _ _ _ _ true [] [] _)
             (mkExn "UnicodeDecodeError" "bad byte" true)); reflexivity.
  - apply (proj2 (parse_failure_policy _ _ _ _ _ _ false [] [] _)).
    reflexivity.
Defined.

(** * Further properties of the coordinator *)

Section DictEntries.
Context {K V : Type} `{EqDecision K}.
Implicit Types (d : list (K * V)) (k : K) (v : V).

Lemma elem_of_set k v k' v' d :
  (k', v') ∈ PyDict.set k v d → (k', v') ∈ d ∨ (k' = k ∧ v' = v).
Proof.
  induction d as [|[k0 w] d IH]; simpl.
  - intros [=]%list_elem_of_singleton. by right.
  - destruct (decide (k0 = k)) as [->|Hne].
    + intros [[=]|Hin]%elem_of_cons; [by right|left; by right].
    + intros [[=]|Hin]%elem_of_cons; subst; [left; left|].
      destruct (IH Hin) as [?|?]; [left; by right|by right].
Qed.

Lemma get_Some_elem k v d : PyDict.get k d = Some v → (k, v) ∈ d.
Proof.
  induction d as [|[k0 w] d IH]; simpl; [done|].
  destruct (decide (k0 = k)) as [->|Hne].
  - intros [= ->]. left.
  - intros Hget. right. by apply IH.
Qed.

End DictEntries.

Section Genuine.
Context {Packet : Type} `{EqDecision Packet}.
Variable hashret : Packet → bytes.
Variable answers : Packet → Packet → bool.
Variable multi : bool.

Local Abbreviation State := (@SndRcv.State Packet).
Local Abbreviation Transition := (SndRcv.Transition hashret answers multi).
Local Abbreviation genuine := (SndRcv.genuine hashret answers).
Local Abbreviation run_pass := (SndRcv.run_pass hashret answers multi).

Implicit Types (st : State) (given : list Packet).

Lemma elem_of_chain_values s (d : list (bytes * list Packet)) :
  s ∈ SndRcv.chain_values d → ∃ h l, (h, l) ∈ d ∧ s ∈ l.
Proof.
  unfold SndRcv.chain_values, PyDict.values.
  induction d as [|[h l] d IH]; simpl; [by intros ?%elem_of_nil|].
  intros [Hs|Hs]%elem_of_app.
  - exists h, l. split; [left|done].
  - destruct (IH Hs) as (h' & l' & Hin & Hs'). exists h', l'.
    split; [by right|done].
Qed.

Lemma bucket_entries h st s :
  s ∈ SndRcv.bucket h st → ∃ l, (h, l) ∈ SndRcv.hsent st ∧ s ∈ l.
Proof.
  unfold SndRcv.bucket.
  destruct (PyDict.get h (SndRcv.hsent st)) as [l|] eqn:Hget; simpl.
  - intros Hs. exists l. split; [by apply get_Some_elem|done].
  - by intros ?%elem_of_nil.
Qed.

Lemma genuine_match given st r i s :
  genuine given st →
  SndRcv.first_match hashret answers r st = Some (i, s) →
  answers r s = true ∧ hashret r = hashret s ∧ s ∈ given.
Proof.
  intros (Htable & _ & _) (_ & Hi & Hans & _)%first_match_Some.
  apply list_elem_of_lookup_2, bucket_entries in Hi as (l & Hl & Hs).
  destruct (Htable _ _ _ Hl Hs) as [Hh Hg]. by rewrite Hh.
Qed.

Lemma genuine_step given st st' :
  Transition st st' → genuine given st → genuine given st'.
Proof.
  intros Ht Hgen. pose proof Hgen as (Htable & Hans & Hiter).
  destruct Ht as [Hh Ha _ _ _ Hi _
                 |q rest _ Hq Hh Hi _ Ha _ _ _
                 |q _ _ _ Hh Ha _ _ Hi
                 |r i s _ Hm Hh Ha _ _ _ Hi _
                 |r i s _ Hm Hh Ha _ _ _ Hi _];
    unfold SndRcv.genuine; rewrite Hh, Ha, Hi; try done.
  - split; [|split; [done|]].
    + intros h l s [Hin|[-> ->]]%elem_of_set; [by apply (Htable h l s)|].
      intros [Hs| ->%list_elem_of_singleton]%elem_of_app.
      * destruct (PyDict.get (hashret q) (SndRcv.hsent st)) as [old|] eqn:Hg;
          simpl in Hs; [|by apply elem_of_nil in Hs].
        eapply Htable; [by apply get_Some_elem|done].
      * split; [done|]. apply Hiter. rewrite Hq. left.
    + intros s Hs. apply Hiter. rewrite Hq. by right.
  - pose proof (genuine_match _ _ _ _ _ Hgen Hm) as Hnew.
    split; [|split; [|done]].
    + intros h l s' [Hin|[-> ->]]%elem_of_set; [by apply (Htable h l s')|].
      intros Hs'.
      pose proof (elem_of_sublist _ _ _ Hs' (sublist_delete _ _)) as Hb.
      apply bucket_entries in Hb as (l & Hl & Hb). by apply (Htable _ l s').
    + intros s' r' [Hin|[= -> ->]%list_elem_of_singleton]%elem_of_app;
        [by apply Hans|apply Hnew].
  - pose proof (genuine_match _ _ _ _ _ Hgen Hm) as Hnew.
    split; [done|split; [|done]].
    intros s' r' [Hin|[= -> ->]%list_elem_of_singleton]%elem_of_app;
      [by apply Hans|apply Hnew].
Qed.

(** A pass keeps the table and the answers genuine, and what it leaves
    outstanding comes from what it was given. *)
Lemma genuine_pass given threaded sched tobesent st :
  genuine given st → (∀ s, s ∈ tobesent → s ∈ given) →
  genuine given (run_pass threaded sched tobesent st) ∧
  ∀ s, s ∈ SndRcv.remain multi (run_pass threaded sched tobesent st) →
       s ∈ given.
Proof.
  intros (_ & Hans & _) Hsub.
  destruct (run_pass_run hashret answers multi threaded sched tobesent st)
    as [sched' ->].
  assert (genuine given
            (SndRcv.run hashret answers multi sched'
               (SndRcv.pass_start tobesent st))) as Hgen.
  { apply (run_invariant hashret answers multi (genuine given)).
    - intros st1 st2. apply genuine_step.
    - split; [|split]; simpl; [|done..].
      intros h l s Hin. by apply elem_of_nil in Hin. }
  split; [done|]. intros s Hs.
  assert (s ∈ SndRcv.chain_values
                (SndRcv.hsent (SndRcv.run hashret answers multi sched'
                                 (SndRcv.pass_start tobesent st)))) as Hc.
  { unfold SndRcv.remain in Hs. destruct multi; [|done].
    by apply list_elem_of_filter in Hs as [_ ?]. }
  apply elem_of_chain_values in Hc as (h & l & Hl & Hs').
  destruct Hgen as (Htable & _). by eapply Htable.
Qed.

Lemma genuine_loop given fuel threaded env autostop n retry tobesent rem
    st st' rem' tr :
  genuine given st → (∀ s, s ∈ tobesent → s ∈ given) →
  (∀ s, s ∈ rem → s ∈ given) →
  SndRcv.retry_loop hashret answers multi fuel threaded env autostop n retry
    tobesent rem st = Some (st', rem', tr) →
  genuine given st' ∧ ∀ s, s ∈ rem' → s ∈ given.
Proof.
  revert n retry tobesent rem st st' rem' tr.
  induction fuel as [|fuel IH];
    intros n retry tobesent rem st st' rem' tr Hgen Hsub Hrem Hres.
  { simpl in Hres. by destruct (Z.ltb_spec retry 0); simplify_eq. }
  destruct (Z.ltb_spec retry 0) as [Hneg|Hpos].
  { rewrite retry_loop_exit in Hres by done. by simplify_eq. }
  destruct (genuine_pass given threaded (env n) tobesent st Hgen Hsub)
    as [Hgen' Hsub'].
  apply retry_loop_inv in Hres as (fuel' & [= <-] & Hcases); [|done].
  simpl in Hcases.
  destruct Hcases as [[_ ?]|(_ & st2 & rem2 & tr2 & Hrec & ?)]; simplify_eq.
  - done.
  - by eapply IH.
Qed.

End Genuine.

(** X1: every pair [(s, r)] of the answered list of a run is genuine:
    [r] answers [s], [r] and [s] have the same fingerprint, and [s] is
    one of the stimuli the caller gave; and every packet of the
    unanswered list is one of those stimuli too. *)
Theorem answered_pairs_genuine {Packet : Type} `{EqDecision Packet}
    (hashret : Packet → bytes) (answers : Packet → Packet → bool)
    (multi threaded : bool) (env : nat → list SndRcv.Event) (retry : Z)
    (pkt : list Packet) :
  ∃ res,
    SndRcv.SndRcvHandler hashret answers multi threaded env retry pkt
    = Some res ∧
    (∀ s r, (s, r) ∈ SndRcv.ans_result res →
            answers r s = true ∧ hashret r = hashret s ∧ s ∈ pkt) ∧
    (∀ s, s ∈ SndRcv.unans_result res → s ∈ pkt).
Proof.
  destruct (SndRcvHandler_returns hashret answers multi threaded env retry pkt)
    as (res & st & rem & Hres & Hloop & Hans & Hrem & _).
  exists res. split; [done|]. rewrite Hans, Hrem.
  eapply (genuine_loop hashret answers multi pkt) in Hloop
    as [(_ & Hpairs & _) Hleft]; [done| |done|by intros ? ?%elem_of_nil].
  split; [|split]; simpl; intros; exfalso; by eapply elem_of_nil.
Qed.

Section SingleRuns.
Context {Packet : Type} `{EqDecision Packet}.
Variable hashret : Packet → bytes.
Variable answers : Packet → Packet → bool.

Local Abbreviation State := (@SndRcv.State Packet).
Local Abbreviation Event := (@SndRcv.Event Packet).
Local Abbreviation retry_loop := (SndRcv.retry_loop hashret answers).
Local Abbreviation run_pass := (SndRcv.run_pass hashret answers).

Implicit Types (st : State) (env : nat → list Event) (tobesent rem : list Packet).

Lemma occurrences_pos s (l : list Packet) :
  s ∈ l → (0 < SndRcv.occurrences s l)%nat.
Proof.
  intros (l1 & l2 & ->)%list_elem_of_split.
  rewrite occurrences_app, occurrences_cons, decide_True by done. lia.
Qed.

(** Single-answer mode: what a loop pairs or leaves outstanding was
    given to it, stimulus by stimulus. *)
Lemma retry_loop_whereabouts s fuel threaded env autostop n retry tobesent rem
    st st' rem' tr :
  0 ≤ retry →
  retry_loop false fuel threaded env autostop n retry tobesent rem st
  = Some (st', rem', tr) →
  (SndRcv.answer_count s (SndRcv.ans st') + SndRcv.occurrences s rem'
   ≤ SndRcv.answer_count s (SndRcv.ans st) + SndRcv.occurrences s tobesent)%nat.
Proof.
  revert n retry tobesent rem st st' rem' tr.
  induction fuel as [|fuel IH];
    intros n retry tobesent rem st st' rem' tr Hretry Hres.
  { simpl in Hres. destruct (Z.ltb_spec retry 0); [lia|done]. }
  pose proof (pass_answer_count hashret answers false s threaded (env n)
                tobesent st eq_refl) as Hpass.
  apply retry_loop_inv in Hres as (fuel' & [= <-] & Hcases); [|done].
  simpl in Hcases. unfold SndRcv.remain in Hpass.
  destruct Hcases as [[_ ?]|(_ & st2 & rem2 & tr2 & Hrec & ?)]; simplify_eq.
  - done.
  - match type of Hrec with
    | context [SndRcv.reset_retry ?a ?b ?c ?d - 1] =>
        destruct (Z.ltb_spec (SndRcv.reset_retry a b c d - 1) 0) as [Hlt|Hge]
    end.
    + rewrite retry_loop_exit in Hrec by done. by simplify_eq.
    + apply IH in Hrec; [|done]. lia.
Qed.

(** Single-answer mode: pairs and outstanding stimuli together never
    outnumber the stimuli given. *)
Lemma single_step_total st st' :
  SndRcv.Transition hashret answers false st st' →
  (length (SndRcv.ans st') + length (SndRcv.chain_values (SndRcv.hsent st'))
   + length (SndRcv.snd_iter st')
   = length (SndRcv.ans st) + length (SndRcv.chain_values (SndRcv.hsent st))
     + length (SndRcv.snd_iter st))%nat.
Proof.
  intros [Hh Ha _ _ _ Hi _
         |q rest _ Hq Hh Hi _ Ha _ _ _
         |q _ _ _ Hh Ha _ _ Hi
         |r i s' _ Hm Hh Ha _ _ _ Hi _
         |r i s' Hmulti _ _ _ _ _ _ _ _]; [..|done];
    rewrite ?Hh, ?Ha, ?Hi; try done.
  - rewrite Hq, (Permutation_length (chain_values_append _ q _)). simpl. lia.
  - rewrite (Permutation_length (chain_values_delete _ _ _ _ _ _ Hm)).
    rewrite length_app. simpl. lia.
Qed.

Lemma single_pass_total threaded sched tobesent st :
  let st' := run_pass false threaded sched tobesent st in
  (length (SndRcv.ans st') + length (SndRcv.remain false st')
   + length (SndRcv.snd_iter st')
   = length (SndRcv.ans st) + length tobesent)%nat.
Proof.
  simpl.
  destruct (run_pass_run hashret answers false threaded sched tobesent st)
    as [sched' ->].
  set (total := λ st' : State,
         (length (SndRcv.ans st')
          + length (SndRcv.chain_values (SndRcv.hsent st'))
          + length (SndRcv.snd_iter st'))%nat).
  assert (total (SndRcv.run hashret answers false sched'
                   (SndRcv.pass_start tobesent st))
          = total (SndRcv.pass_start tobesent st)) as Ht.
  { apply (run_invariant hashret answers false
             (λ st', total st' = total (SndRcv.pass_start tobesent st)));
      [|done].
    intros st1 st2 Hstep <-. by apply single_step_total. }
  unfold total in Ht. simpl in Ht. unfold SndRcv.remain. lia.
Qed.

Lemma retry_loop_total_length fuel threaded env autostop n retry tobesent rem
    st st' rem' tr :
  0 ≤ retry →
  retry_loop false fuel threaded env autostop n retry tobesent rem st
  = Some (st', rem', tr) →
  (length (SndRcv.ans st') + length rem'
   ≤ length (SndRcv.ans st) + length tobesent)%nat.
Proof.
  revert n retry tobesent rem st st' rem' tr.
  induction fuel as [|fuel IH];
    intros n retry tobesent rem st st' rem' tr Hretry Hres.
  { simpl in Hres. destruct (Z.ltb_spec retry 0); [lia|done]. }
  pose proof (single_pass_total threaded (env n) tobesent st) as Hpass.
  apply retry_loop_inv in Hres as (fuel' & [= <-] & Hcases); [|done].
  simpl in Hcases, Hpass.
  destruct Hcases as [[_ ?]|(_ & st2 & rem2 & tr2 & Hrec & ?)]; simplify_eq.
  - lia.
  - match type of Hrec with
    | context [SndRcv.reset_retry ?a ?b ?c ?d - 1] =>
        destruct (Z.ltb_spec (SndRcv.reset_retry a b c d - 1) 0) as [Hlt|Hge]
    end.
    + rewrite retry_loop_exit in Hrec by done. simplify_eq. lia.
    + apply IH in Hrec; [|done]. lia.
Qed.

End SingleRuns.

(** X2: in single-answer mode the answered and the unanswered list of a
    run together hold no more packets than the caller gave stimuli: a
    stimulus is paired at most as often as it was given, and only what
    was sent and not paired is left. *)
Theorem answered_unanswered_bounded {Packet : Type} `{EqDecision Packet}
    (hashret : Packet → bytes) (answers : Packet → Packet → bool)
    (threaded : bool) (env : nat → list SndRcv.Event) (retry : Z)
    (pkt : list Packet) :
  ∃ res,
    SndRcv.SndRcvHandler hashret answers false threaded env retry pkt
    = Some res ∧
    (length (SndRcv.ans_result res) + length (SndRcv.unans_result res)
     ≤ length pkt)%nat.
Proof.
  destruct (SndRcvHandler_returns hashret answers false threaded env retry pkt)
    as (res & st & rem & Hres & Hloop & Hans & Hrem & _).
  exists res. split; [done|]. rewrite Hans, Hrem.
  apply retry_loop_total_length in Hloop;
    [simpl in Hloop; lia|apply init_retry_nonneg].
Qed.

(** X3: in single-answer mode, for stimuli that are distinct objects, no
    packet of the unanswered list is the stimulus of a pair of the
    answered list. *)
Theorem unanswered_not_answered {Packet : Type} `{EqDecision Packet}
    (hashret : Packet → bytes) (answers : Packet → Packet → bool)
    (threaded : bool) (env : nat → list SndRcv.Event) (retry : Z)
    (pkt : list Packet) :
  NoDup pkt →
  ∃ res,
    SndRcv.SndRcvHandler hashret answers false threaded env retry pkt
    = Some res ∧
    ∀ s, s ∈ SndRcv.unans_result res → s ∉ map fst (SndRcv.ans_result res).
Proof.
  intros Hnd.
  destruct (SndRcvHandler_returns hashret answers false threaded env retry pkt)
    as (res & st & rem & Hres & Hloop & Hans & Hrem & _).
  exists res. split; [done|]. rewrite Hans, Hrem. intros s Hs Hpaired.
  apply (retry_loop_whereabouts hashret answers s) in Hloop;
    [|apply init_retry_nonneg].
  pose proof (occurrences_NoDup s pkt Hnd).
  pose proof (occurrences_pos s rem Hs).
  pose proof (occurrences_pos s _ Hpaired) as Hpos.
  change (SndRcv.answer_count s (SndRcv.ans SndRcv.init_state)) with 0%nat
    in Hloop.
  unfold SndRcv.answer_count in Hloop. lia.
Qed.

Lemma unanswered_not_answered_witness :
  ∃ res,
    SndRcv.SndRcvHandler Stub.hashret Stub.answers false true
      (λ _, Stub.send_all 3 ++ Stub.receive [13]%nat) 0 [1; 2; 3]%nat
    = Some res ∧
    SndRcv.ans_result res = [(3, 13)]%nat ∧
    SndRcv.unans_result res = [1; 2]%nat ∧
    (1 ∉ map fst (SndRcv.ans_result res))%nat.
Proof.
  destruct (unanswered_not_answered Stub.hashret Stub.answers true
              (λ _, Stub.send_all 3 ++ Stub.receive [13]%nat) 0 [1; 2; 3]%nat)
    as (res & Hres & Hdisj).
  { by apply (bool_decide_unpack (NoDup [1; 2; 3]%nat)). }
  exists res. split; [done|].
  assert (SndRcv.unans_result res = [1; 2]%nat) as Hun.
  { vm_compute in Hres. by injection Hres as <-. }
  split; [|split; [done|]].
  - vm_compute in Hres. by injection Hres as <-.
  - apply Hdisj. rewrite Hun. left.
Defined.

Section PassShape.
Context {Packet : Type} `{EqDecision Packet}.
Variable hashret : Packet → bytes.
Variable answers : Packet → Packet → bool.
Variable multi : bool.

Local Abbreviation State := (@SndRcv.State Packet).
Local Abbreviation Event := (@SndRcv.Event Packet).
Local Abbreviation Transition := (SndRcv.Transition hashret answers multi).
Local Abbreviation run_pass := (SndRcv.run_pass hashret answers multi).
Local Abbreviation retry_loop := (SndRcv.retry_loop hashret answers multi).

Implicit Types (st : State) (env : nat → list Event) (tobesent rem : list Packet).

Lemma in_order_step w0 tobesent st st' :
  Transition st st' →
  SndRcv.in_order w0 tobesent st → SndRcv.in_order w0 tobesent st'.
Proof.
  intros Ht (sent & rest & Hw & Htb & Hpc). unfold SndRcv.in_order.
  destruct Ht as [_ _ _ _ Hw' Hi Hpc'
                 |q rest' Hq Hit _ Hi Hpc' _ _ _ Hw'
                 |q Hq Hw' Hpc' _ _ _ _ Hi
                 |r i s _ _ _ _ _ _ Hw' Hi Hpc'
                 |r i s _ _ _ _ _ _ Hw' Hi Hpc'].
  - exists sent, rest. rewrite Hw', Hi. repeat split; try done.
    destruct Hpc' as [->|[->|[Hs ->]]]; try done.
    by rewrite Hs in Hpc.
  - exists sent, rest. rewrite Hw', Hi, Hpc'. repeat split; try done.
    rewrite Hq in Hpc. by rewrite Hpc, Hit.
  - exists (sent ++ [q]), (SndRcv.snd_iter st).
    rewrite Hw', Hw, Hi, Hpc'. rewrite Hq in Hpc.
    repeat split; [by rewrite app_assoc|].
    by rewrite Htb, Hpc, <- app_assoc.
  - exists sent, rest. by rewrite Hw', Hi, Hpc'.
  - exists sent, rest. by rewrite Hw', Hi, Hpc'.
Qed.

(** One more pass: the chain of the loop's passes. *)
Lemma retry_loop_chained fuel threaded env autostop n retry tobesent rem
    st st' rem' tr :
  0 ≤ retry →
  retry_loop fuel threaded env autostop n retry tobesent rem st
  = Some (st', rem', tr) →
  tr ≠ [] ∧ SndRcv.chained (length tobesent) tr (length rem').
Proof.
  revert n retry tobesent rem st st' rem' tr.
  induction fuel as [|fuel IH];
    intros n retry tobesent rem st st' rem' tr Hretry Hres.
  { simpl in Hres. destruct (Z.ltb_spec retry 0); [lia|done]. }
  pose proof (remain_length hashret answers multi threaded (env n) tobesent st)
    as Hlen.
  apply retry_loop_inv in Hres as (fuel' & [= <-] & Hcases); [|done].
  simpl in Hcases.
  destruct Hcases as [[_ ?]|(_ & st2 & rem2 & tr2 & Hrec & ?)]; simplify_eq.
  - by repeat split.
  - split; [done|]. simpl. repeat split; [done|].
    match type of Hrec with
    | context [SndRcv.reset_retry ?a ?b ?c ?d - 1] =>
        destruct (Z.ltb_spec (SndRcv.reset_retry a b c d - 1) 0) as [Hlt|Hge]
    end.
    + rewrite retry_loop_exit in Hrec by done. by simplify_eq.
    + by apply IH in Hrec as [_ ?].
Qed.

(** Without an autostop budget every pass uses up one retry. *)
Lemma retry_loop_bounded fuel threaded env n retry tobesent rem st st' rem' tr :
  0 ≤ retry →
  retry_loop fuel threaded env 0 n retry tobesent rem st
  = Some (st', rem', tr) →
  (length tr ≤ S (Z.to_nat retry))%nat ∧
  (rem' ≠ [] → length tr = S (Z.to_nat retry)).
Proof.
  revert n retry tobesent rem st st' rem' tr.
  induction fuel as [|fuel IH];
    intros n retry tobesent rem st st' rem' tr Hretry Hres.
  { simpl in Hres. destruct (Z.ltb_spec retry 0); [lia|done]. }
  apply retry_loop_inv in Hres as (fuel' & [= <-] & Hcases); [|done].
  simpl in Hcases.
  destruct Hcases as [[Hnil ?]|(_ & st2 & rem2 & tr2 & Hrec & ?)]; simplify_eq.
  - simpl. split; [lia|done].
  - change (SndRcv.reset_retry 0 retry tobesent
              (SndRcv.remain multi (run_pass threaded (env n) tobesent st)))
      with retry in Hrec.
    destruct (Z.ltb_spec (retry - 1) 0) as [Hlt|Hge].
    + rewrite retry_loop_exit in Hrec by done. simplify_eq. simpl.
      split; [lia|]. intros _. f_equal. lia.
    + apply IH in Hrec as [Hle Heq]; [|done]. simpl. split; [lia|].
      intros Hleft. rewrite (Heq Hleft). lia.
Qed.

End PassShape.

(** X4: in every pass the sender transmits the stimuli in the order of
    the packet source, each at most once: what the pass puts on the wire
    is a prefix of the stimuli it was given. *)
Theorem pass_sends_prefix {Packet : Type} `{EqDecision Packet}
    (hashret : Packet → bytes) (answers : Packet → Packet → bool)
    (multi threaded : bool) (sched : list SndRcv.Event)
    (tobesent : list Packet) (st : SndRcv.State) :
  ∃ sent,
    SndRcv.wire (SndRcv.run_pass hashret answers multi threaded sched tobesent st)
    = SndRcv.wire st ++ sent ∧
    sent `prefix_of` tobesent.
Proof.
  destruct (run_pass_run hashret answers multi threaded sched tobesent st)
    as [sched' ->].
  assert (SndRcv.in_order (SndRcv.wire st) tobesent
            (SndRcv.run hashret answers multi sched'
               (SndRcv.pass_start tobesent st)))
    as (sent & rest & Hw & Htb & _).
  { apply (run_invariant hashret answers multi
             (SndRcv.in_order (SndRcv.wire st) tobesent)).
    - intros st1 st2. apply in_order_step.
    - exists [], tobesent. simpl. by rewrite app_nil_r. }
  exists sent. split; [done|]. by exists rest.
Qed.

(** X5: the passes of a run form a chain: the first is given the
    caller's stimuli, each later one is given what the pass before left
    outstanding, no pass leaves more than it was given, and the
    unanswered list has the length the last pass left. *)
Theorem passes_chained {Packet : Type} `{EqDecision Packet}
    (hashret : Packet → bytes) (answers : Packet → Packet → bool)
    (multi threaded : bool) (env : nat → list SndRcv.Event) (retry : Z)
    (pkt : list Packet) :
  ∃ res,
    SndRcv.SndRcvHandler hashret answers multi threaded env retry pkt
    = Some res ∧
    SndRcv.passes res ≠ [] ∧
    SndRcv.chained (length pkt) (SndRcv.passes res)
      (length (SndRcv.unans_result res)).
Proof.
  destruct (SndRcvHandler_returns hashret answers multi threaded env retry pkt)
    as (res & st & rem & Hres & Hloop & _ & Hrem & _).
  exists res. split; [done|]. rewrite Hrem.
  eapply retry_loop_chained; [|done]. apply init_retry_nonneg.
Qed.

(** X6: with [retry = n >= 0] the coordinator makes at least one and at
    most [n + 1] send passes, and exactly [n + 1] when stimuli are left
    unanswered. *)
Theorem positive_retry_bound {Packet : Type} `{EqDecision Packet}
    (hashret : Packet → bytes) (answers : Packet → Packet → bool)
    (multi threaded : bool) (env : nat → list SndRcv.Event) (retry : Z)
    (pkt : list Packet) :
  0 ≤ retry →
  ∃ res,
    SndRcv.SndRcvHandler hashret answers multi threaded env retry pkt
    = Some res ∧
    (1 ≤ length (SndRcv.passes res) ≤ S (Z.to_nat retry))%nat ∧
    (SndRcv.unans_result res ≠ [] →
     length (SndRcv.passes res) = S (Z.to_nat retry)).
Proof.
  intros Hretry.
  destruct (SndRcvHandler_returns hashret answers multi threaded env retry pkt)
    as (res & st & rem & Hres & Hloop & _ & Hrem & _).
  assert (SndRcv.init_retry retry = (retry, 0)) as Hinit.
  { unfold SndRcv.init_retry. by destruct (Z.ltb_spec retry 0); [lia|]. }
  rewrite Hinit in Hloop. cbn [fst snd] in Hloop.
  exists res. split; [done|]. rewrite Hrem.
  pose proof (retry_loop_chained _ _ _ _ _ _ _ _ _ _ _ _ _ _ _ Hretry Hloop)
    as [Hne _].
  apply retry_loop_bounded in Hloop as [Hle Heq]; [|done].
  split; [|done]. split; [|done].
  destruct (SndRcv.passes res); [done|simpl; lia].
Qed.

Lemma positive_retry_bound_witness :
  ∃ res,
    SndRcv.SndRcvHandler Stub.hashret Stub.answers false true
      (λ _, Stub.send_all 2) 3 [1; 2]%nat
    = Some res ∧
    SndRcv.unans_result res = [1; 2]%nat ∧
    length (SndRcv.passes res) = 4%nat.
Proof.
  destruct (positive_retry_bound Stub.hashret Stub.answers false true
              (λ _, Stub.send_all 2) 3 [1; 2]%nat)
    as (res & Hres & _ & Hall); [lia|].
  exists res. split; [done|].
  assert (SndRcv.unans_result res = [1; 2]%nat) as Hun.
  { vm_compute in Hres. by injection Hres as <-. }
  split; [done|]. apply Hall. by rewrite Hun.
Defined.

Section Received.
Context {Packet : Type} `{EqDecision Packet}.
Variable hashret : Packet → bytes.
Variable answers : Packet → Packet → bool.
Variable multi : bool.

Local Abbreviation State := (@SndRcv.State Packet).
Local Abbreviation Event := (@SndRcv.Event Packet).

Implicit Types (st : State) (e : Event) (sched : list Event).

Local Abbreviation seen := (@SndRcv.seen Packet).

Lemma finish_seen st : seen (SndRcv.snd_finish multi st) = seen st.
Proof.
  unfold SndRcv.seen, SndRcv.snd_finish, SndRcv._stop_sniffer_if_done.
  by destruct (_ && _ && _).
Qed.

Lemma step_seen e st :
  seen (SndRcv.step hashret answers multi e st)
  = seen st + Z.of_nat (length (SndRcv.received [e])).
Proof.
  destruct e as [| |[r|]|]; simpl; rewrite ?Z.add_0_r; try done.
  - unfold SndRcv.snd_step.
    destruct (SndRcv.snd_pc st); try done.
    + destruct (SndRcv.snd_iter st); [apply finish_seen|done].
    + destruct (SndRcv.breakout st); [apply finish_seen|done].
  - destruct (SndRcv.snd_pc st) eqn:Hpc; try done.
    unfold SndRcv.snd_step. rewrite Hpc. apply finish_seen.
  - unfold SndRcv.seen, SndRcv.record_match, SndRcv.count_unmatched,
      SndRcv._stop_sniffer_if_done.
    destruct (SndRcv.first_match hashret answers r st) as [[i s]|];
      destruct multi; simpl;
      repeat match goal with
             | |- context [if ?b then _ else _] => destruct b
             end; simpl; rewrite ?length_app; simpl; lia.
Qed.

Lemma received_cons e sched :
  SndRcv.received (e :: sched) = SndRcv.received [e] ++ SndRcv.received sched.
Proof. unfold SndRcv.received. apply (omap_app _ [e] sched). Qed.

Lemma run_seen sched st :
  seen (SndRcv.run hashret answers multi sched st)
  = seen st + Z.of_nat (length (SndRcv.received sched)).
Proof.
  unfold SndRcv.run. revert st.
  induction sched as [|e sched IH]; intros st; [simpl; lia|].
  cbn [fold_left]. rewrite IH, step_seen, (received_cons e sched), length_app.
  lia.
Qed.

Lemma received_replicate_snd (n : nat) :
  SndRcv.received (replicate n (@SndRcv.SndStep Packet)) = [].
Proof. induction n; simpl; [done|]. by rewrite IHn. Qed.

Lemma received_filter_rcv sched :
  SndRcv.received (filter (λ e, SndRcv.is_rcv e = true) sched)
  = SndRcv.received sched.
Proof.
  induction sched as [|e sched IH]; [done|].
  rewrite filter_cons. destruct e; simpl; try done.
  destruct r; simpl; by rewrite ?IH.
Qed.

End Received.

(** X7: in a pass every packet the sniffer hands to the dispatcher is
    counted exactly once, as an answer or as an unsolicited packet: the
    number [nbrecv + len(ans)] that the coordinator reports as received
    grows by the number of packets received, whatever the sender does in
    between. *)
Theorem pass_counts_received {Packet : Type} `{EqDecision Packet}
    (hashret : Packet → bytes) (answers : Packet → Packet → bool)
    (multi threaded : bool) (sched : list SndRcv.Event)
    (tobesent : list Packet) (st : SndRcv.State) :
  SndRcv.seen (SndRcv.run_pass hashret answers multi threaded sched tobesent st)
  = SndRcv.seen st + Z.of_nat (length (SndRcv.received sched)).
Proof.
  unfold SndRcv.run_pass. destruct threaded.
  - rewrite (join_run hashret answers multi), run_seen,
      received_replicate_snd.
    change (SndRcv.set_breakout true ?s)
      with (SndRcv.step hashret answers multi SndRcv.SetBreakout s).
    rewrite step_seen, run_seen. simpl. unfold SndRcv.seen. simpl. lia.
  - rewrite run_seen, (join_run hashret answers multi), run_seen,
      received_replicate_snd, received_filter_rcv.
    unfold SndRcv.seen. simpl. lia.
Qed.

(** X8: [sr1] returns [None] exactly when nothing was answered, and a
    reply it returns is the reply of the first recorded pair: it answers
    one of the stimuli the caller gave. *)
Theorem sr1_first_answer {Packet : Type} `{EqDecision Packet}
    (hashret : Packet → bytes) (answers : Packet → Packet → bool)
    (multi threaded : bool) (env : nat → list SndRcv.Event) (retry : Z)
    (pkt : list Packet) :
  ∃ res,
    SndRcv.SndRcvHandler hashret answers multi threaded env retry pkt
    = Some res ∧
    (SndRcv.sr1 res = None ↔ SndRcv.ans_result res = []) ∧
    (∀ r, SndRcv.sr1 res = Some r →
          ∃ s, head (SndRcv.ans_result res) = Some (s, r) ∧
               s ∈ pkt ∧ answers r s = true).
Proof.
  destruct (answered_pairs_genuine hashret answers multi threaded env retry pkt)
    as (res & Hres & Hpairs & _).
  exists res. split; [done|]. unfold SndRcv.sr1.
  destruct (SndRcv.ans_result res) as [|[s r] l]; split; try done.
  intros r' [= <-]. exists s. split; [done|].
  destruct (Hpairs s r) as (Ha & _ & Hs); [left|done].
Qed.

(** * Further properties of the send engine *)

Section GenSendRuns.
Context {Packet : Type}.
Variable verbose : Z.
Variable return_packets : bool.
Variable limit : option nat.

Implicit Types (x : list Packet) (tx : @GenSend.Tx Packet).

Local Abbreviation consistent := (GenSend.consistent return_packets limit).

Lemma traverse_consistent x tx :
  consistent tx → GenSend.interrupted tx = false →
  consistent (GenSend.traverse verbose x tx).
Proof.
  revert tx. induction x as [|p x IH]; intros tx Hc Hni; simpl; [done|].
  destruct Hc as (Hn & Hsp & Hintr & Hle & Hint).
  destruct (GenSend.intr tx) as [[|j]|] eqn:Hj.
  - split; [done|]. split; [done|]. split; [done|].
    split; [done|]. intros _. simpl.
    destruct limit as [k|]; simpl in Hintr; [|done].
    injection Hintr as Hk. specialize (Hle k eq_refl). f_equal. lia.
  - apply IH; [|done]. unfold GenSend.send_one. rewrite Hj.
    split; [|split; [|split; [|split]]]; simpl; rewrite ?length_app; simpl.
    + lia.
    + rewrite Hsp. by destruct return_packets.
    + destruct limit as [k|]; simpl in *; [|done].
      injection Hintr as Hk. f_equal. lia.
    + intros k ->. simpl in Hintr. injection Hintr as Hk. lia.
    + done.
  - apply IH; [|done]. unfold GenSend.send_one. rewrite Hj.
    destruct limit as [k|]; [done|].
    split; [|split; [|split; [|split]]]; simpl; rewrite ?length_app; simpl;
      try done.
    + lia.
    + rewrite Hsp. by destruct return_packets.
Qed.

Lemma while_loop_consistent fuel x loop tx tx' :
  consistent tx → GenSend.interrupted tx = false →
  GenSend.while_loop fuel verbose x loop tx = Some tx' →
  consistent tx'.
Proof.
  revert loop tx. induction fuel as [|fuel IH]; intros loop tx Hc Hni; simpl.
  - destruct (loop =? 0); [by intros [= <-]|done].
  - destruct (loop =? 0); [by intros [= <-]|].
    pose proof (traverse_consistent x tx Hc Hni) as Hc'.
    destruct (GenSend.interrupted (GenSend.traverse verbose x tx)) eqn:Hi.
    + by intros [= <-].
    + by apply IH.
Qed.

(** A traversal with [j] sends left before the interrupt is cut short,
    or uses up as many of them as the source has packets. *)
Lemma traverse_budget x tx j :
  GenSend.intr tx = Some j → GenSend.interrupted tx = false →
  let tx' := GenSend.traverse verbose x tx in
  GenSend.interrupted tx' = true
  ∨ (GenSend.interrupted tx' = false ∧ (length x ≤ j)%nat ∧
     GenSend.intr tx' = Some (j - length x)%nat).
Proof.
  revert tx j. induction x as [|p x IH]; intros tx j Hj Hni; simpl.
  - right. rewrite Hj. repeat split; [done|lia|f_equal; lia].
  - rewrite Hj. destruct j as [|j]; [by left|].
    destruct (IH (GenSend.send_one verbose p tx) j) as [?|(? & ? & Hj')].
    + simpl. by rewrite Hj.
    + done.
    + by left.
    + right. repeat split; [done|lia|by rewrite Hj'].
Qed.

(** A loop that repeats for ever over a source that is not empty is
    ended by the interrupt. *)
Lemma while_loop_interrupted fuel x loop tx j :
  0 < loop → x ≠ [] →
  GenSend.intr tx = Some j → GenSend.interrupted tx = false →
  (j < fuel)%nat →
  ∃ tx', GenSend.while_loop fuel verbose x loop tx = Some tx' ∧
         GenSend.interrupted tx' = true.
Proof.
  intros Hloop Hx. revert tx j.
  induction fuel as [|fuel IH]; intros tx j Hj Hni Hfuel; [lia|].
  simpl. destruct (Z.eqb_spec loop 0); [lia|].
  destruct (traverse_budget x tx j Hj Hni) as [Hi|(Hi & Hlen & Hj')];
    rewrite Hi.
  - by eexists.
  - destruct (Z.ltb_spec loop 0); [lia|].
    apply (IH _ (j - length x)%nat); [done..|].
    destruct x; [done|]. simpl in *. lia.
Qed.

End GenSendRuns.





(** * Further properties of the flood controller *)

Section FloodRuns.
Context {Packet : Type}.
Implicit Types (tobesent : list Packet).

(** A cycle under a stop event that is set after [n] more packets. *)
Lemma cycle_stop tobesent (n : nat) j :
  Flood.cycle tobesent (Some n) j
  = if decide (n < length tobesent)%nat
    then (take n tobesent, j + Z.of_nat n, Some O, true)
    else (tobesent, j + Z.of_nat (length tobesent),
          Some (n - length tobesent)%nat, false).
Proof.
  revert n j. induction tobesent as [|p rest IH]; intros n j.
  - cbn [Flood.cycle length]. case_decide; [lia|].
    do 3 f_equal; [lia|f_equal; lia].
  - destruct n as [|n]; cbn [Flood.cycle length Nat.pred].
    + case_decide; [|lia]. do 3 f_equal. lia.
    + rewrite IH. repeat case_decide; try lia; cbn [take Nat.sub];
        do 3 f_equal; lia.
Qed.

Lemma iterate_unbounded fuel tobesent maxretries i iterlen :
  maxretries = None ∨ maxretries = Some 0 →
  Flood.iterate fuel tobesent maxretries None i iterlen = None.
Proof.
  intros Hmax. revert i iterlen.
  induction fuel as [|fuel IH]; intros i iterlen; simpl; [done|].
  assert (Flood.retries_reached maxretries (i + 1) = false) as ->
    by (by destruct Hmax as [-> | ->]).
  rewrite cycle_no_stop. by rewrite IH.
Qed.

Lemma iterate_stopped fuel tobesent (n : nat) i iterlen :
  tobesent ≠ [] → (n < fuel)%nat →
  ∃ ys il,
    Flood.iterate fuel tobesent None (Some n) i iterlen = Some (ys, il) ∧
    length ys = n ∧ ys `prefix_of` concat (replicate fuel tobesent).
Proof.
  intros Hne. revert n i iterlen.
  induction fuel as [|fuel IH]; intros n i iterlen Hfuel; [lia|].
  simpl. rewrite cycle_stop.
  destruct (decide (n < length tobesent)%nat) as [Hlt|Hge].
  - exists (take n tobesent), iterlen. split; [done|].
    split; [rewrite length_take; lia|].
    apply prefix_app_r. rewrite <- (take_drop n tobesent) at 2.
    by apply prefix_app_r.
  - destruct (IH (n - length tobesent)%nat (i + 1)
                (if iterlen =? 0 then 0 + Z.of_nat (length tobesent)
                 else iterlen))
      as (zs & il & Hrec & Hlen & Hpre).
    { destruct tobesent; [done|]. simpl in *. lia. }
    rewrite Hrec. simpl. exists (tobesent ++ zs), il. split; [done|].
    split; [rewrite length_app; lia|]. by apply prefix_app.
Qed.

End FloodRuns.

(** X11: with [maxretries = k >= 1] and the stop event never set, the
    flood generator yields exactly [k - 1] complete cycles of the source,
    in order, and then is exhausted; [iterlen] is then the length of one
    cycle, or still 0 when [k = 1] and no cycle was made. *)
Theorem flood_yields_cycles {Packet : Type} (tobesent : list Packet) (k : Z)
    (fuel : nat) :
  1 ≤ k → (Z.to_nat k ≤ fuel)%nat →
  Flood._FloodGenerator fuel tobesent (Some k) None
  = Some (concat (replicate (Z.to_nat (k - 1)) tobesent),
          if k =? 1 then 0 else Z.of_nat (length tobesent)).
Proof. apply flood_cycles. Qed.

Lemma flood_yields_cycles_witness :
  Flood._FloodGenerator 3 [1; 2]%nat (Some 3) None
  = Some ([1; 2; 1; 2]%nat, 2).
Proof. apply (flood_yields_cycles [1; 2]%nat 3 3); lia. Defined.

(** X12: without [maxretries] ([None], or 0, which [if self.maxretries]
    reads as none) and without the stop event, the flood generator never
    ends by itself: after any number of rounds it is still running. *)
Theorem flood_never_ends {Packet : Type} (tobesent : list Packet)
    (fuel : nat) :
  Flood._FloodGenerator fuel tobesent None None = None ∧
  Flood._FloodGenerator fuel tobesent (Some 0) None = None.
Proof. split; apply iterate_unbounded; auto. Qed.

(** X13: over a source that is not empty and without [maxretries], once
    the stop event is set after the consumer took [n] packets the
    generator returns: it has yielded exactly these [n] packets, the
    first [n] of the repeated source, and nothing after the stop. *)
Theorem flood_stops {Packet : Type} (tobesent : list Packet) (n fuel : nat) :
  tobesent ≠ [] → (n < fuel)%nat →
  ∃ ys il,
    Flood._FloodGenerator fuel tobesent None (Some n) = Some (ys, il) ∧
    length ys = n ∧ ys `prefix_of` concat (replicate fuel tobesent).
Proof. intros. by apply iterate_stopped. Qed.

Lemma flood_stops_witness :
  ∃ ys il,
    Flood._FloodGenerator 4 [1; 2]%nat None (Some 3%nat) = Some (ys, il) ∧
    length ys = 3%nat ∧ ys `prefix_of` concat (replicate 4 [1; 2]%nat).
Proof. apply (flood_stops [1; 2]%nat 3 4); [done|lia]. Defined.
